(** * Absence accounting for the ILR dependant calculators

    A shallow embedding of the computational core of [streamlit_app.py]
    (inclusive day counting) and [streamlit_ilr_policy_app.py] (UKVI whole-day
    counting), and the properties their specification states about them.

    - [Calendar]: the part of [datetime] / [dateutil.relativedelta] the two
      programs rely on.
    - [App]: [streamlit_app.py].
    - [Policy]: [streamlit_ilr_policy_app.py].
    - [Ui]: the trip rows of the page of [streamlit_app.py].
    - [Checked]: [compute_dates] and the two block loops within the range of
      [datetime].

    Conventions.  [None] as the outcome of a computation stands for a Python
    exception ([IndexError] on a list read) or, for a [while] loop run on
    fuel, for a loop that has not finished; the theorems show that neither
    happens.  Dates are proleptic Gregorian dates over all of [Z]; the
    bounds [date.min] and [date.max] of [datetime] (years 1 to 9999), outside
    which date arithmetic raises, are checked in [Checked], which gives
    [compute_dates] and the two block loops again with every date operation
    checked. *)

From Stdlib Require Import ZArith Lia Bool.
From stdpp Require Import base list sets gmap sorting strings.
Local Open Scope Z_scope.
Set Warnings "-clear-no-such-hyp".

(** ** Dates *)

Module Calendar.

(** A [datetime.date] is represented by its proleptic Gregorian ordinal
    ([date.toordinal()]: 1 is 0001-01-01).  Comparison of dates is comparison
    of ordinals, [d + timedelta(days=n)] is addition and [(b - a).days] is
    subtraction; only [relativedelta] needs the civil calendar. *)
Abbreviation date := Z (only parsing).

Definition is_leap (y : Z) : bool :=
  (y mod 4 =? 0) && (negb (y mod 100 =? 0) || (y mod 400 =? 0)).

Definition DAYS_IN_MONTH (m : Z) : Z :=
  match m with
  | 1 => 31 | 2 => 28 | 3 => 31 | 4 => 30 | 5 => 31 | 6 => 30
  | 7 => 31 | 8 => 31 | 9 => 30 | 10 => 31 | 11 => 30 | 12 => 31
  | _ => -1
  end.

Definition DAYS_BEFORE_MONTH (m : Z) : Z :=
  match m with
  | 1 => 0 | 2 => 31 | 3 => 59 | 4 => 90 | 5 => 120 | 6 => 151
  | 7 => 181 | 8 => 212 | 9 => 243 | 10 => 273 | 11 => 304 | 12 => 334
  | _ => -1
  end.

(** [calendar.monthrange(y, m)[1]] *)
Definition days_in_month (y m : Z) : Z :=
  if (m =? 2) && is_leap y then 29 else DAYS_IN_MONTH m.

Definition days_before_year (y : Z) : Z :=
  let p := y - 1 in p * 365 + p / 4 - p / 100 + p / 400.

Definition days_before_month (y m : Z) : Z :=
  DAYS_BEFORE_MONTH m + (if (2 <? m) && is_leap y then 1 else 0).

(** [date(y, m, d).toordinal()] *)
Definition ymd2ord (y m d : Z) : Z :=
  days_before_year y + days_before_month y m + d.

Definition DI400Y : Z := 146097.
Definition DI100Y : Z := 36524.
Definition DI4Y : Z := 1461.

(** Month and day of the [n]-th day (from 0) of a year. *)
Definition month_day (leapyear : bool) (n : Z) : Z * Z :=
  let month := Z.shiftr (n + 50) 5 in
  let preceding :=
    DAYS_BEFORE_MONTH month + (if (2 <? month) && leapyear then 1 else 0) in
  if n <? preceding then
    let month' := month - 1 in
    let preceding' :=
      preceding
      - (DAYS_IN_MONTH month' + (if (month' =? 2) && leapyear then 1 else 0)) in
    (month', n - preceding' + 1)
  else (month, n - preceding + 1).

(** [date.fromordinal(n)] as (year, month, day) *)
Definition ord2ymd (n : Z) : Z * Z * Z :=
  let n := n - 1 in
  let n400 := n / DI400Y in
  let n := n mod DI400Y in
  let n100 := n / DI100Y in
  let n := n mod DI100Y in
  let n4 := n / DI4Y in
  let n := n mod DI4Y in
  let n1 := n / 365 in
  let n := n mod 365 in
  let year := n400 * 400 + 1 + n100 * 100 + n4 * 4 + n1 in
  if (n1 =? 4) || (n100 =? 4) then (year - 1, 12, 31)
  else
    let leapyear := (n1 =? 3) && (negb (n4 =? 24) || (n100 =? 3)) in
    let '(month, day) := month_day leapyear n in
    (year, month, day).

Definition valid_ymd (y m d : Z) : Prop :=
  1 <= m <= 12 /\ 1 <= d <= days_in_month y m.

(** [date(y, m, d)] *)
Definition mk_date (y m d : Z) : date := ymd2ord y m d.

(** [d + timedelta(days=n)] and [d - timedelta(days=n)] *)
Definition add_days (d : date) (n : Z) : date := d + n.
Definition sub_days (d : date) (n : Z) : date := d - n.

(** [(b - a).days] *)
Definition days_between (b a : date) : Z := b - a.

(** [d + relativedelta(years=k)]: the year moves by [k], the month stays and
    the day is cut down to the length of the month it lands in. *)
Definition add_years (k : Z) (d : date) : date :=
  let '(y, m, dd) := ord2ymd d in
  let year := y + k in
  ymd2ord year m (Z.min (days_in_month year m) dd).

End Calendar.

Import Calendar.

(** A row handed to the core: departure and return, either of which may be
    missing ([None]). *)
Abbreviation trip := (option Z * option Z)%type (only parsing).

(** ** streamlit_app.py *)

Module App.

Definition to_day_serial (d : date) : Z := days_between d (mk_date 1970 1 1).

Definition from_day_serial (n : Z) : date := add_days (mk_date 1970 1 1) n.

Definition daterange_inclusive (start end_ : date) : list date :=
  let n := days_between end_ start in
  (λ i, add_days start i) <$> seqZ 0 (n + 1).

Definition compute_dates (start_date : date) : date * date :=
  let qualifying := add_years 5 start_date in
  let earliest := sub_days qualifying 28 in
  (qualifying, earliest).

(** One round of the loop over trips in [compute_absence]. *)
Definition absent_add_trip (start end_ : date) (absent : gset Z) (t : trip)
  : gset Z :=
  match t with
  | (Some out, Some back) =>
      let a := Z.min out back in
      let b := Z.max out back in
      if (b <? start) || (end_ <? a) then absent
      else
        let a := Z.max a start in
        let b := Z.min b end_ in
        foldl (λ absent d, {[to_day_serial d]} ∪ absent) absent
              (daterange_inclusive a b)
  | _ => absent
  end.

(** The set [absent] when the loop over trips is done. *)
Definition absent_days (trips : list trip) (start end_ : date) : gset Z :=
  foldl (absent_add_trip start end_) ∅ trips.

(** [while absent_sorted[j] < start_window: j += 1].  A read past the end of
    the list raises; [fuel] is the length of the list, which the reads run
    out of first. *)
Fixpoint advance (fuel : nat) (absent_sorted : list Z) (start_window : Z)
    (j : nat) : option nat :=
  match absent_sorted !! j with
  | None => None
  | Some x =>
      if x <? start_window then
        match fuel with
        | O => None
        | S fuel' => advance fuel' absent_sorted start_window (S j)
        end
      else Some j
  end.

(** [for i in range(len(absent_sorted)): ...], on the indices still to visit;
    the state is [j] and [max_in_any_window]. *)
Fixpoint window_scan (absent_sorted : list Z) (indices : list nat) (j : nat)
    (max_in_any_window : Z) : option (nat * Z) :=
  match indices with
  | [] => Some (j, max_in_any_window)
  | i :: indices' =>
      match absent_sorted !! i with
      | None => None
      | Some x =>
          let start_window := x - 364 in
          match advance (length absent_sorted) absent_sorted start_window j with
          | None => None
          | Some j' =>
              let count := Z.of_nat i - Z.of_nat j' + 1 in
              window_scan absent_sorted indices' j'
                (if max_in_any_window <? count then count
                 else max_in_any_window)
          end
      end
  end.

Record row := {
  Year : Z;
  Start : date;
  End_ : date;
  Absent_days : Z;
  Status : string
}.

(** [days], counted over [absent_sorted] for one block. *)
Definition block_days (absent_sorted : list Z) (cur_start cur_end : date) : Z :=
  foldl (λ days n,
           let d := from_day_serial n in
           if (cur_start <=? d) && (d <=? cur_end) then days + 1 else days)
        0 absent_sorted.

(** [while cur_start <= end: ...] *)
Fixpoint fixed_loop (fuel : nat) (absent_sorted : list Z) (end_ : date)
    (cap : Z) (cur_start : date) (fixed : list row) : option (list row) :=
  if cur_start <=? end_ then
    match fuel with
    | O => None
    | S fuel' =>
        let cur_end := Z.min (sub_days (add_years 1 cur_start) 1) end_ in
        let days := block_days absent_sorted cur_start cur_end in
        let r := {| Year := Z.of_nat (length fixed) + 1;
                    Start := cur_start;
                    End_ := cur_end;
                    Absent_days := days;
                    Status := if cap <? days then "BREACH" else "OK" |} in
        fixed_loop fuel' absent_sorted end_ cap (add_years 1 cur_start)
                   (fixed ++ [r])
    end
  else Some fixed.

(** Rounds granted to the loop over blocks: one for every day of the window
    and one more, where every block takes a year. *)
Definition block_fuel (start end_ : date) : nat :=
  S (Z.to_nat (days_between end_ start)).

Record result := {
  total_absent_days : Z;
  max_in_any_window : Z;
  fixed_blocks : list row;
  breach : bool
}.

Definition compute_absence (trips : list trip) (start end_ : date) (cap : Z)
  : option result :=
  let absent := absent_days trips start end_ in
  let absent_sorted := merge_sort Z.le (elements absent) in
  match window_scan absent_sorted (seq 0 (length absent_sorted)) 0%nat 0 with
  | None => None
  | Some (_, max_in_any_window) =>
      match fixed_loop (block_fuel start end_) absent_sorted end_ cap start []
      with
      | None => None
      | Some fixed =>
          Some {| total_absent_days := Z.of_nat (size absent);
                  max_in_any_window := max_in_any_window;
                  fixed_blocks := fixed;
                  breach := cap <? max_in_any_window |}
      end
  end.

End App.

(** ** streamlit_ilr_policy_app.py *)

Module Policy.

Definition daterange_inclusive (a b : date) : list date :=
  (λ i, add_days a i) <$> seqZ 0 (days_between b a + 1).

Definition compute_dates (res_start : date) : date * date :=
  let qualifying := add_years 5 res_start in
  let earliest := sub_days qualifying 28 in
  (qualifying, earliest).

Definition normalise_trip (out back : option date) : trip :=
  match out, back with
  | Some o, Some b => if b <? o then (Some b, Some o) else (Some o, Some b)
  | _, _ => (None, None)
  end.

(** One round of the loop over trips in [count_absences_ukvi]. *)
Definition absent_add_trip (fivey_start fivey_end : date) (absent : gset Z)
    (t : trip) : gset Z :=
  match normalise_trip (fst t) (snd t) with
  | (Some out, Some back) =>
      let start := add_days out 1 in
      let end_ := sub_days back 1 in
      if (end_ <? fivey_start) || (fivey_end <? start) then absent
      else
        let start := Z.max start fivey_start in
        let end_ := Z.min end_ fivey_end in
        if start <=? end_ then
          foldl (λ absent d, {[d]} ∪ absent) absent
                (daterange_inclusive start end_)
        else absent
  | _ => absent
  end.

Definition count_absences_ukvi (trips : list trip) (fivey_start fivey_end : date)
  : gset Z :=
  foldl (absent_add_trip fivey_start fivey_end) ∅ trips.

(** [while days[j] < start_win: j += 1] *)
Fixpoint advance (fuel : nat) (days : list date) (start_win : date) (j : nat)
  : option nat :=
  match days !! j with
  | None => None
  | Some x =>
      if x <? start_win then
        match fuel with
        | O => None
        | S fuel' => advance fuel' days start_win (S j)
        end
      else Some j
  end.

(** [for i, d in enumerate(days): ...], on the part of the enumeration still
    to visit; the state is [j], [best] and [best_end]. *)
Fixpoint window_scan (days : list date) (todo : list (nat * date)) (j : nat)
    (best : Z) (best_end : option date) : option (nat * Z * option date) :=
  match todo with
  | [] => Some (j, best, best_end)
  | (i, d) :: todo' =>
      let start_win := sub_days d 364 in
      match advance (length days) days start_win j with
      | None => None
      | Some j' =>
          let count := Z.of_nat i - Z.of_nat j' + 1 in
          if best <? count then window_scan days todo' j' count (Some d)
          else window_scan days todo' j' best best_end
      end
  end.

Definition enumerate (days : list date) : list (nat * date) :=
  zip (seq 0 (length days)) days.

(** Returns [(max_count, window_start, window_end)]. *)
Definition rolling_12m_max (absent_days : list date)
  : option (Z * option date * option date) :=
  match absent_days with
  | [] => Some (0, None, None)
  | _ =>
      let days := merge_sort Z.le absent_days in
      match window_scan days (enumerate days) 0%nat 0 None with
      | None => None
      | Some (_, best, best_end) =>
          let best_start := (λ e, sub_days e 364) <$> best_end in
          Some (best, best_start, best_end)
      end
  end.

Record row := {
  Year : Z;
  Start : date;
  End_ : date;
  Whole_days_absent : Z;
  Status : string
}.

(** [sum(1 for d in absent_set if year_start <= d <= year_end)] *)
Definition block_count (absent_set : gset Z) (year_start year_end : date) : Z :=
  Z.of_nat (length (filter (λ d, year_start ≤ d ≤ year_end) (elements absent_set))).

(** [while year_start <= fivey_end: ...] *)
Fixpoint block_loop (fuel : nat) (absent_set : gset Z) (fivey_end : date)
    (cap : Z) (rows : list row) (i : Z) (year_start : date)
  : option (list row) :=
  if year_start <=? fivey_end then
    match fuel with
    | O => None
    | S fuel' =>
        let year_end := Z.min (sub_days (add_years 1 year_start) 1) fivey_end in
        let count := block_count absent_set year_start year_end in
        let r := {| Year := i + 1;
                    Start := year_start;
                    End_ := year_end;
                    Whole_days_absent := count;
                    Status := if cap <? count then "BREACH" else "OK" |} in
        block_loop fuel' absent_set fivey_end cap (rows ++ [r]) (i + 1)
                   (add_years 1 year_start)
    end
  else Some rows.

Definition block_fuel (res_start fivey_end : date) : nat :=
  S (Z.to_nat (days_between fivey_end res_start)).

Definition build_fixed_blocks (absent_set : gset Z) (res_start fivey_end : date)
    (cap : Z) : option (list row) :=
  block_loop (block_fuel res_start fivey_end) absent_set fivey_end cap [] 0
             res_start.

(** The trips handed to [count_absences_ukvi]: rows with both dates, put in
    order ([parsed_trips], before the filter). *)
Definition parse_trips (trips_list : list trip) : list (date * date) :=
  foldl (λ parsed_trips r,
           match normalise_trip (fst r) (snd r) with
           | (Some out, Some inn) => parsed_trips ++ [(out, inn)]
           | _ => parsed_trips
           end) [] trips_list.

(** [[(o,i) for (o,i) in parsed_trips if i >= res_start]] *)
Definition drop_before_entry (res_start : date) (parsed_trips : list (date * date))
  : list (date * date) :=
  filter (λ t, res_start ≤ snd t) parsed_trips.

Definition as_trips (parsed_trips : list (date * date)) : list trip :=
  (λ t, (Some (fst t), Some (snd t))) <$> parsed_trips.

(** ["Within limit" if max_count <= cap else "BREACH"] *)
Definition rolling_status (max_count cap : Z) : string :=
  if max_count <=? cap then "Within limit" else "BREACH".

End Policy.

(** ** streamlit_app.py: the trip rows of the page *)

Module Ui.

(** [trips[idx] = v]; an index out of range raises. *)
Definition set_item (trips : list trip) (idx : nat) (v : trip) : option (list trip) :=
  if decide (idx < length trips)%nat then Some (<[idx := v]> trips) else None.

(** [del trips[i]]; an index out of range raises. *)
Definition del_item (trips : list trip) (i : nat) : option (list trip) :=
  if decide (i < length trips)%nat then Some (delete i trips) else None.

(** The loop that renders the rows.  [widgets idx] stands for what the
    widgets of row [idx] return in this run of the page: the two dates and
    whether the delete button of the row was pressed. *)
Definition render_rows (widgets : nat → option date * option date * bool)
    (trips : list trip) : option (list trip * list nat) :=
  foldl (λ state row,
           '(trips, to_delete) ← state;
           let idx := row.1 in
           let '(out_val, back_val, pressed) := widgets idx in
           let to_delete := if pressed then to_delete ++ [idx] else to_delete in
           trips ← set_item trips idx (out_val, back_val);
           Some (trips, to_delete))
        (Some (trips, [])) (zip (seq 0 (length trips)) trips).

(** [for i in sorted(to_delete, reverse=True): del trips[i]] *)
Definition delete_selected (to_delete : list nat) (trips : list trip)
  : option (list trip) :=
  foldl (λ state i, trips ← state; del_item trips i) (Some trips)
        (reverse (merge_sort le to_delete)).

(** One run of the trip section: a row is added if the button was pressed,
    the rows are rendered and the selected rows are deleted. *)
Definition edit_trips (add : bool)
    (widgets : nat → option date * option date * bool) (trips : list trip)
  : option (list trip) :=
  let trips := if add then trips ++ [(None, None)] else trips in
  '(trips, to_delete) ← render_rows widgets trips;
  delete_selected to_delete trips.

End Ui.

(** ** The blocks with the range of [datetime] checked *)

(** [datetime] has dates from 0001-01-01 to 9999-12-31 only, and arithmetic
    that leaves that range raises.  The definitions above take dates over all
    of [Z]; here [compute_dates] and the two block loops are given again with
    every date operation checked, the way the programs run them. *)
Module Checked.

(** What a run ends in when it does not return: an exception of [datetime],
    or, for a loop run on fuel, no end within the rounds granted. *)
Inductive error := ValueError | OverflowError | OutOfFuel.

Definition MINYEAR : Z := 1.
Definition MAXYEAR : Z := 9999.

(** [date.min.toordinal()] and [date.max.toordinal()] *)
Definition min_ordinal : Z := mk_date MINYEAR 1 1.
Definition max_ordinal : Z := mk_date MAXYEAR 12 31.

(** [d + relativedelta(years=k)]: replacing the year by one outside
    [MINYEAR .. MAXYEAR] raises [ValueError]. *)
Definition add_years (k : Z) (d : date) : error + date :=
  let '(y, _, _) := ord2ymd d in
  if (MINYEAR <=? y + k) && (y + k <=? MAXYEAR)
  then inr (Calendar.add_years k d) else inl ValueError.

(** [d + timedelta(days=n)] and [d - timedelta(days=n)]: a result outside
    [date.min .. date.max] raises [OverflowError]. *)
Definition add_days (d : date) (n : Z) : error + date :=
  if (min_ordinal <=? d + n) && (d + n <=? max_ordinal)
  then inr (d + n) else inl OverflowError.

Definition sub_days (d : date) (n : Z) : error + date :=
  if (min_ordinal <=? d - n) && (d - n <=? max_ordinal)
  then inr (d - n) else inl OverflowError.

(** [compute_dates], the same in both programs. *)
Definition compute_dates (res_start : date) : error + (date * date) :=
  match add_years 5 res_start with
  | inl e => inl e
  | inr qualifying =>
      match sub_days qualifying 28 with
      | inl e => inl e
      | inr earliest => inr (qualifying, earliest)
      end
  end.

(** The loop of [build_fixed_blocks]. *)
Fixpoint block_loop (fuel : nat) (absent_set : gset Z) (fivey_end : date)
    (cap : Z) (rows : list Policy.row) (i : Z) (year_start : date)
  : error + list Policy.row :=
  if year_start <=? fivey_end then
    match fuel with
    | O => inl OutOfFuel
    | S fuel' =>
        match add_years 1 year_start with
        | inl e => inl e
        | inr next_start =>
            match sub_days next_start 1 with
            | inl e => inl e
            | inr last =>
                let year_end := Z.min last fivey_end in
                let count := Policy.block_count absent_set year_start year_end in
                let r := {| Policy.Year := i + 1;
                            Policy.Start := year_start;
                            Policy.End_ := year_end;
                            Policy.Whole_days_absent := count;
                            Policy.Status :=
                              if cap <? count then "BREACH" else "OK" |} in
                block_loop fuel' absent_set fivey_end cap (rows ++ [r]) (i + 1)
                           next_start
            end
        end
    end
  else inr rows.

Definition build_fixed_blocks (absent_set : gset Z) (res_start fivey_end : date)
    (cap : Z) : error + list Policy.row :=
  block_loop (Policy.block_fuel res_start fivey_end) absent_set fivey_end cap [] 0
             res_start.

(** [from_day_serial] *)
Definition from_day_serial (n : Z) : error + date := add_days (mk_date 1970 1 1) n.

(** [days], counted over [absent_sorted] for one block of [compute_absence]. *)
Definition block_days (absent_sorted : list Z) (cur_start cur_end : date)
  : error + Z :=
  foldl (λ acc n,
           match acc with
           | inl e => inl e
           | inr days =>
               match from_day_serial n with
               | inl e => inl e
               | inr d =>
                   inr (if (cur_start <=? d) && (d <=? cur_end)
                        then days + 1 else days)
               end
           end)
        (inr 0) absent_sorted.

(** The loop over blocks in [compute_absence]. *)
Fixpoint fixed_loop (fuel : nat) (absent_sorted : list Z) (end_ : date)
    (cap : Z) (cur_start : date) (fixed : list App.row) : error + list App.row :=
  if cur_start <=? end_ then
    match fuel with
    | O => inl OutOfFuel
    | S fuel' =>
        match add_years 1 cur_start with
        | inl e => inl e
        | inr next_start =>
            match sub_days next_start 1 with
            | inl e => inl e
            | inr last =>
                let cur_end := Z.min last end_ in
                match block_days absent_sorted cur_start cur_end with
                | inl e => inl e
                | inr days =>
                    let r := {| App.Year := Z.of_nat (length fixed) + 1;
                                App.Start := cur_start;
                                App.End_ := cur_end;
                                App.Absent_days := days;
                                App.Status :=
                                  if cap <? days then "BREACH" else "OK" |} in
                    fixed_loop fuel' absent_sorted end_ cap next_start
                               (fixed ++ [r])
                end
            end
        end
    end
  else inr fixed.

(** The list [fixed] of [compute_absence], for the set of absent days it
    builds from the trips. *)
Definition fixed_blocks (trips : list trip) (start end_ : date) (cap : Z)
  : error + list App.row :=
  let absent_sorted := merge_sort Z.le (elements (App.absent_days trips start end_)) in
  fixed_loop (App.block_fuel start end_) absent_sorted end_ cap start [].

End Checked.

(** ** Notions used to state the properties *)

Module Spec.

(** A check of all integers from 0 below [n], decided by evaluation. *)
Definition all_below (n : nat) (P : Z -> bool) : bool :=
  forallb (fun k => P (Z.of_nat k)) (seq 0 n).

(** What [month_day] owes for day [n] of a year: a month, a day of that
    month, and [n] days before it in the year. *)
Definition month_day_ok (leapyear : bool) (n : Z) : bool :=
  let '(m, d) := month_day leapyear n in
  (1 <=? m) && (m <=? 12) && (1 <=? d)
  && (d <=? DAYS_IN_MONTH m + (if (m =? 2) && leapyear then 1 else 0))
  && (DAYS_BEFORE_MONTH m + (if (2 <? m) && leapyear then 1 else 0) + d =? n + 1).

(** Where the day of a date lands when its year is moved to [y']. *)
Definition clip_day (y' m d : Z) : Z := Z.min (days_in_month y' m) d.

(** The [k]-th anniversary as the block loops reach it: [k] times a year on. *)
Definition anniversary (k : nat) (start : date) : date :=
  Nat.iter k (add_years 1) start.

(** A day that a complete trip covers within the window, both ends counted. *)
Definition covered_inclusive (trips : list trip) (start end_ d : date) : Prop :=
  ∃ out back, (Some out, Some back) ∈ trips
    ∧ Z.min out back ≤ d ≤ Z.max out back ∧ start ≤ d ≤ end_.

(** A day strictly inside a complete trip and within the window. *)
Definition covered_whole_day (trips : list trip) (start end_ d : date) : Prop :=
  ∃ out back, (Some out, Some back) ∈ trips
    ∧ Z.min out back < d < Z.max out back ∧ start ≤ d ≤ end_.

(** The enumeration of a list from index [a] on. *)
Definition enum_from (a : nat) (l : list Z) : list (nat * Z) :=
  zip (seq a (length l)) l.

(** Strictly increasing, by index. *)
Definition increasing (days : list Z) : Prop :=
  ∀ k1 k2 y1 y2, (k1 < k2)%nat → days !! k1 = Some y1 → days !! k2 = Some y2 → y1 < y2.

(** Absent days in the 365 days that end on [x]. *)
Definition wcount (days : list Z) (x : Z) : Z :=
  Z.of_nat (length (filter (λ d, x - 364 ≤ d ≤ x) days)).

(** Absent days of a set between [lo] and [hi], both included. *)
Definition count_in (absent : gset Z) (lo hi : Z) : Z :=
  Z.of_nat (size (filter (λ d, lo ≤ d ≤ hi) absent)).

(** Entries before [j] lie before the 365 days ending on any entry from
    index [a] on. *)
Definition below_windows (days : list Z) (j a : nat) : Prop :=
  ∀ k y i x, (k < j)%nat → days !! k = Some y → (a ≤ i)%nat → days !! i = Some x →
    y < x - 364.





(** The days from [lo] to [hi], both included, as a set. *)
Definition day_span (lo hi : date) : gset Z := list_to_set (seqZ lo (hi - lo + 1)).

(** The absence span of a trip under INCLUSIVE counting, cut to the window,
    as the specification words it. *)
Definition clipped_span_inclusive (start end_ : date) (t : trip) : gset Z :=
  match t with
  | (Some out, Some back) =>
      day_span (Z.min out back) (Z.max out back) ∩ day_span start end_
  | _ => ∅
  end.

(** The absence span of a trip under UKVI_WHOLE_DAY counting, cut to the
    window, as the specification words it. *)
Definition clipped_span_whole_day (start end_ : date) (t : trip) : gset Z :=
  match t with
  | (Some out, Some back) =>
      day_span (Z.min out back + 1) (Z.max out back - 1) ∩ day_span start end_
  | _ => ∅
  end.


(** The sum of a list of integers. *)
Definition sum_Z (l : list Z) : Z := foldr Z.add 0 l.

End Spec.

Import Spec.

(** ** Facts about the calendar *)

Module CalendarFacts.

Lemma days_before_year_succ y :
  days_before_year (y + 1) = days_before_year y + 365 + (if is_leap y then 1 else 0).
Proof.
  unfold days_before_year, is_leap.
  replace (y + 1 - 1) with y by lia.
  destruct (Z.eqb_spec (y mod 4) 0), (Z.eqb_spec (y mod 100) 0), (Z.eqb_spec (y mod 400) 0);
    simpl; Z.div_mod_to_equations; lia.
Qed.

Lemma all_below_spec n P :
  all_below n P = true -> forall k, 0 <= k < Z.of_nat n -> P k = true.
Proof.
  unfold all_below. rewrite forallb_forall. intros H k Hk.
  replace k with (Z.of_nat (Z.to_nat k)) by lia.
  apply H, in_seq. lia.
Qed.

Lemma month_day_spec (leapyear : bool) (n : Z) :
  0 <= n < 365 + (if leapyear then 1 else 0) ->
  month_day_ok leapyear n = true.
Proof.
  intros Hn.
  destruct leapyear.
  - apply (all_below_spec 366 (month_day_ok true)); [vm_compute; reflexivity | lia].
  - apply (all_below_spec 365 (month_day_ok false)); [vm_compute; reflexivity | lia].
Qed.

Lemma ord2ymd_spec n :
  let '(y, m, d) := ord2ymd n in valid_ymd y m d /\ ymd2ord y m d = n.
Proof.
  unfold ord2ymd, DI400Y, DI100Y, DI4Y.
  set (a := n - 1).
  set (n400 := a / 146097). set (r400 := a mod 146097).
  set (n100 := r400 / 36524). set (r100 := r400 mod 36524).
  set (n4 := r100 / 1461). set (r4 := r100 mod 1461).
  set (n1 := r4 / 365). set (r1 := r4 mod 365).
  assert (Ha : a = 146097 * n400 + r400 /\ 0 <= r400 < 146097)
    by (subst n400 r400; Z.div_mod_to_equations; lia).
  assert (Hb : r400 = 36524 * n100 + r100 /\ 0 <= r100 < 36524 /\ 0 <= n100 <= 4)
    by (subst n100 r100; Z.div_mod_to_equations; lia).
  assert (Hc : r100 = 1461 * n4 + r4 /\ 0 <= r4 < 1461 /\ 0 <= n4 <= 24)
    by (subst n4 r4; Z.div_mod_to_equations; lia).
  assert (Hd : r4 = 365 * n1 + r1 /\ 0 <= r1 < 365 /\ 0 <= n1 <= 4)
    by (subst n1 r1; Z.div_mod_to_equations; lia).
  clearbody n400 r400 n100 r100 n4 r4 n1 r1.
  set (year := n400 * 400 + 1 + n100 * 100 + n4 * 4 + n1).
  destruct ((n1 =? 4) || (n100 =? 4)) eqn:Hlast.
  - (* last day of a leap year or of a 400-year cycle *)
    assert (Hleap : is_leap (year - 1) = true).
    { unfold is_leap. apply orb_true_iff in Hlast.
      rewrite andb_true_iff, orb_true_iff, negb_true_iff, !Z.eqb_eq, Z.eqb_neq.
      destruct Hlast as [H|H]; apply Z.eqb_eq in H; subst year;
        Z.div_mod_to_equations; lia. }
    unfold valid_ymd, ymd2ord, days_in_month, days_before_month. rewrite Hleap. simpl.
    split; [lia|].
    unfold days_before_year.
    apply orb_true_iff in Hlast.
    destruct Hlast as [H|H]; apply Z.eqb_eq in H; subst year;
      Z.div_mod_to_equations; lia.
  - apply orb_false_iff in Hlast. destruct Hlast as [H1 H100].
    apply Z.eqb_neq in H1, H100.
    set (leapyear := (n1 =? 3) && (negb (n4 =? 24) || (n100 =? 3))).
    assert (Hleap : is_leap year = leapyear).
    { unfold is_leap, leapyear.
      destruct (Z.eqb_spec n1 3), (Z.eqb_spec n4 24), (Z.eqb_spec n100 3); simpl;
      repeat match goal with
      | |- context [ ?x =? 0 ] => destruct (Z.eqb_spec x 0); simpl
      end; try reflexivity; exfalso; subst year; Z.div_mod_to_equations; lia. }
    assert (Hr : 0 <= r1 < 365 + (if leapyear then 1 else 0))
      by (destruct leapyear; lia).
    pose proof (month_day_spec leapyear r1 Hr) as Hmd.
    unfold month_day_ok in Hmd.
    destruct (month_day leapyear r1) as [m d].
    rewrite !andb_true_iff in Hmd.
    destruct Hmd as [[[[Hm1 Hm2] Hd1] Hd2] Hsum].
    apply Z.leb_le in Hm1, Hm2, Hd1, Hd2. apply Z.eqb_eq in Hsum.
    unfold valid_ymd, ymd2ord, days_in_month, days_before_month. rewrite Hleap.
    split.
    + split; [lia|]. split; [lia|].
      destruct ((m =? 2) && leapyear) eqn:E; [|lia].
      apply andb_true_iff in E. destruct E as [E _]. apply Z.eqb_eq in E. subst m.
      simpl in *. lia.
    + unfold days_before_year. subst year.
      Z.div_mod_to_equations; lia.
Qed.

Lemma days_before_year_mono y y' :
  y <= y' -> days_before_year y <= days_before_year y'.
Proof. unfold days_before_year. intros H. Z.div_mod_to_equations. lia. Qed.

Lemma ymd2ord_year_bounds y m d :
  valid_ymd y m d ->
  days_before_year y < ymd2ord y m d <= days_before_year (y + 1).
Proof.
  unfold valid_ymd, ymd2ord, days_in_month, days_before_month.
  rewrite days_before_year_succ.
  intros [Hm Hd].
  assert (Hc : m = 1 \/ m = 2 \/ m = 3 \/ m = 4 \/ m = 5 \/ m = 6 \/ m = 7 \/
               m = 8 \/ m = 9 \/ m = 10 \/ m = 11 \/ m = 12) by lia.
  destruct (is_leap y);
    repeat (destruct Hc as [Hc | Hc]); subst m; simpl in *; lia.
Qed.

Lemma ymd2ord_inj y m d y' m' d' :
  valid_ymd y m d -> valid_ymd y' m' d' ->
  ymd2ord y m d = ymd2ord y' m' d' -> (y, m, d) = (y', m', d').
Proof.
  intros Hv Hv' Heq.
  pose proof (ymd2ord_year_bounds _ _ _ Hv) as Hb.
  pose proof (ymd2ord_year_bounds _ _ _ Hv') as Hb'.
  assert (Hy : y = y').
  { destruct (Z.lt_trichotomy y y') as [Hlt | [-> | Hgt]]; [exfalso | reflexivity | exfalso].
    - pose proof (days_before_year_mono (y + 1) y' ltac:(lia)). lia.
    - pose proof (days_before_year_mono (y' + 1) y ltac:(lia)). lia. }
  subst y'. clear Hb Hb'.
  unfold valid_ymd, ymd2ord, days_in_month, days_before_month in *.
  destruct Hv as [Hm Hd], Hv' as [Hm' Hd'].
  assert (Hc : m = 1 \/ m = 2 \/ m = 3 \/ m = 4 \/ m = 5 \/ m = 6 \/ m = 7 \/
               m = 8 \/ m = 9 \/ m = 10 \/ m = 11 \/ m = 12) by lia.
  assert (Hc' : m' = 1 \/ m' = 2 \/ m' = 3 \/ m' = 4 \/ m' = 5 \/ m' = 6 \/ m' = 7 \/
               m' = 8 \/ m' = 9 \/ m' = 10 \/ m' = 11 \/ m' = 12) by lia.
  assert (Hmm : m = m').
  { destruct (is_leap y);
    repeat (destruct Hc as [Hc | Hc]); subst m;
    repeat (destruct Hc' as [Hc' | Hc']); subst m'; simpl in *; lia. }
  subst m'. f_equal. lia.
Qed.

Lemma ord2ymd_ymd2ord y m d :
  valid_ymd y m d -> ord2ymd (ymd2ord y m d) = (y, m, d).
Proof.
  intros Hv. pose proof (ord2ymd_spec (ymd2ord y m d)) as H.
  destruct (ord2ymd (ymd2ord y m d)) as [[y' m'] d'].
  destruct H as [Hv' Heq]. now apply ymd2ord_inj.
Qed.

Lemma ord2ymd_valid n y m d : ord2ymd n = (y, m, d) -> valid_ymd y m d.
Proof. intros H. pose proof (ord2ymd_spec n) as Hs. rewrite H in Hs. tauto. Qed.

Lemma ymd2ord_ord2ymd n y m d : ord2ymd n = (y, m, d) -> ymd2ord y m d = n.
Proof. intros H. pose proof (ord2ymd_spec n) as Hs. rewrite H in Hs. tauto. Qed.

Lemma days_in_month_ge y m : 1 <= m <= 12 -> 28 <= days_in_month y m <= 31.
Proof.
  intros Hm. unfold days_in_month.
  assert (Hc : m = 1 \/ m = 2 \/ m = 3 \/ m = 4 \/ m = 5 \/ m = 6 \/ m = 7 \/
               m = 8 \/ m = 9 \/ m = 10 \/ m = 11 \/ m = 12) by lia.
  destruct (is_leap y); repeat (destruct Hc as [Hc | Hc]); subst m; simpl; lia.
Qed.

Lemma clip_day_valid y y' m d : valid_ymd y m d -> valid_ymd y' m (clip_day y' m d).
Proof.
  unfold valid_ymd, clip_day. intros [Hm Hd].
  pose proof (days_in_month_ge y' m Hm). lia.
Qed.

Lemma add_years_ymd k n y m d :
  ord2ymd n = (y, m, d) ->
  ord2ymd (add_years k n) = (y + k, m, clip_day (y + k) m d).
Proof.
  intros H. unfold add_years. rewrite H.
  apply ord2ymd_ymd2ord, (clip_day_valid y), (ord2ymd_valid n), H.
Qed.

Lemma is_leap_succ y : is_leap y = true -> is_leap (y + 1) = false.
Proof.
  unfold is_leap. rewrite andb_true_iff, Z.eqb_eq. intros [H4 _].
  apply andb_false_iff. left. apply Z.eqb_neq.
  Z.div_mod_to_equations; lia.
Qed.

(** A year on, a date is 365 or 366 days later. *)
Lemma add_years_1_bounds n : n + 365 <= add_years 1 n <= n + 366.
Proof.
  unfold add_years.
  destruct (ord2ymd n) as [[y m] d] eqn:E.
  pose proof (ord2ymd_valid _ _ _ _ E) as [Hm Hd].
  rewrite <- (ymd2ord_ord2ymd _ _ _ _ E).
  unfold ymd2ord, days_before_month, days_in_month in *.
  rewrite days_before_year_succ.
  assert (Hc : m = 1 \/ m = 2 \/ m = 3 \/ m = 4 \/ m = 5 \/ m = 6 \/ m = 7 \/
               m = 8 \/ m = 9 \/ m = 10 \/ m = 11 \/ m = 12) by lia.
  destruct (is_leap y) eqn:Ly.
  - rewrite (is_leap_succ y Ly).
    repeat (destruct Hc as [Hc | Hc]); subst m; simpl in *; lia.
  - destruct (is_leap (y + 1));
    repeat (destruct Hc as [Hc | Hc]); subst m; simpl in *; lia.
Qed.

Lemma anniversary_succ_r k start :
  anniversary (S k) start = anniversary k (add_years 1 start).
Proof. unfold anniversary. apply Nat.iter_succ_r. Qed.

Lemma anniversary_step k start :
  anniversary k start + 365 <= anniversary (S k) start <= anniversary k start + 366.
Proof. unfold anniversary. simpl. apply add_years_1_bounds. Qed.

Lemma anniversary_lower k start : start + 365 * Z.of_nat k <= anniversary k start.
Proof.
  induction k as [|k IH]; [simpl; lia|].
  pose proof (anniversary_step k start). lia.
Qed.

Lemma anniversary_mono k k' start :
  (k <= k')%nat -> anniversary k start + 365 * Z.of_nat (k' - k) <= anniversary k' start.
Proof.
  induction 1 as [|k' Hle IH].
  - rewrite Nat.sub_diag. simpl. lia.
  - pose proof (anniversary_step k' start).
    replace (S k' - k)%nat with (S (k' - k)) by lia. lia.
Qed.

Lemma anniversary_lt k k' start :
  (k < k')%nat -> anniversary k start < anniversary k' start.
Proof. intros H. pose proof (anniversary_mono k k' start ltac:(lia)). lia. Qed.

(** Civil form of the anniversaries: the day is cut down year after year. *)
Lemma anniversary_ymd k n y m d :
  ord2ymd n = (y, m, d) ->
  exists d', ord2ymd (anniversary k n) = (y + Z.of_nat k, m, d')
    /\ (d <= 28 \/ m <> 2 -> d' = d)
    /\ ((1 <= k)%nat -> m = 2 -> d = 29 -> d' = 28).
Proof.
  intros E. pose proof (ord2ymd_valid _ _ _ _ E) as [Hm Hd].
  induction k as [|k (d' & IH & Hsame & Hfeb)].
  - exists d. simpl. rewrite E, Z.add_0_r. repeat split; auto. lia.
  - exists (clip_day (y + Z.of_nat k + 1) m d').
    split; [|split].
    + change (anniversary (S k) n) with (add_years 1 (anniversary k n)).
      rewrite (add_years_ymd 1 _ _ _ _ IH).
      replace (y + Z.of_nat (S k)) with (y + Z.of_nat k + 1) by lia. reflexivity.
    + intros Hc. rewrite (Hsame Hc). unfold clip_day.
      pose proof (days_in_month_ge (y + Z.of_nat k + 1) m Hm).
      destruct Hc as [Hc|Hc]; [lia|].
      unfold days_in_month in *.
      destruct (Z.eqb_spec m 2); [contradiction|]. simpl in *. lia.
    + intros _ -> ->. unfold clip_day.
      assert (Hl : is_leap y = true).
      { unfold days_in_month in Hd. simpl in Hd. destruct (is_leap y); [reflexivity|simpl in Hd; lia]. }
      destruct k as [|k].
      * simpl in IH. rewrite E in IH. injection IH as _ <-. simpl.
        unfold days_in_month. rewrite Z.add_0_r, (is_leap_succ y Hl). reflexivity.
      * rewrite (Hfeb ltac:(lia) eq_refl eq_refl).
        pose proof (days_in_month_ge (y + Z.of_nat (S k) + 1) 2 ltac:(lia)). lia.
Qed.

Lemma is_leap_plus_5 y : is_leap y = true -> is_leap (y + 5) = false.
Proof.
  unfold is_leap. rewrite andb_true_iff, Z.eqb_eq. intros [H4 _].
  apply andb_false_iff. left. apply Z.eqb_neq.
  Z.div_mod_to_equations; lia.
Qed.

(** Five single years on is five years on, also from a 29 February. *)
Lemma anniversary_5 n : anniversary 5 n = add_years 5 n.
Proof.
  destruct (ord2ymd n) as [[y m] d] eqn:E.
  pose proof (ord2ymd_valid _ _ _ _ E) as [Hm Hd].
  destruct (anniversary_ymd 5 n y m d E) as (d' & E5 & Hsame & Hfeb).
  rewrite <- (ymd2ord_ord2ymd _ _ _ _ E5).
  unfold add_years. rewrite E. simpl Z.of_nat. f_equal.
  pose proof (days_in_month_ge (y + 5) m Hm) as Hge.
  destruct (Z.eq_dec m 2) as [->|Hne].
  - destruct (Z.le_gt_cases d 28) as [Hd28|Hd28].
    + rewrite (Hsame ltac:(lia)). lia.
    + assert (Hl : is_leap y = true).
      { unfold days_in_month in Hd. simpl in Hd. destruct (is_leap y); [reflexivity|simpl in Hd; lia]. }
      assert (d = 29) as -> by (unfold days_in_month in Hd; rewrite Hl in Hd; simpl in Hd; lia).
      rewrite (Hfeb ltac:(lia) eq_refl eq_refl).
      unfold days_in_month. rewrite (is_leap_plus_5 y Hl). reflexivity.
  - rewrite (Hsame ltac:(auto)).
    unfold days_in_month in *. destruct (Z.eqb_spec m 2); [contradiction|]. simpl in *. lia.
Qed.


End CalendarFacts.

(** ** The absent-day sets *)

Module AbsentFacts.

Lemma elem_of_foldl_add {A} (f : A → Z) (l : list A) (acc : gset Z) x :
  x ∈ foldl (λ absent d, {[f d]} ∪ absent) acc l ↔ x ∈ acc ∨ ∃ d, d ∈ l ∧ x = f d.
Proof.
  revert acc. induction l as [|a l IH]; intros acc; simpl.
  - split; [auto|]. intros [H|(d & H & _)]; [done|]. by apply elem_of_nil in H.
  - rewrite IH. set_unfold. naive_solver.
Qed.

Lemma elem_of_app_daterange a b d : d ∈ App.daterange_inclusive a b ↔ a ≤ d ≤ b.
Proof.
  unfold App.daterange_inclusive, add_days, days_between.
  rewrite list_elem_of_fmap. setoid_rewrite elem_of_seqZ.
  split.
  - intros (i & -> & Hi). lia.
  - intros Hd. exists (d - a). lia.
Qed.

Lemma elem_of_policy_daterange a b d : d ∈ Policy.daterange_inclusive a b ↔ a ≤ d ≤ b.
Proof. apply elem_of_app_daterange. Qed.

Lemma to_day_serial_inj d d' : App.to_day_serial d = App.to_day_serial d' → d = d'.
Proof. unfold App.to_day_serial, days_between. lia. Qed.

Lemma from_to_day_serial d : App.from_day_serial (App.to_day_serial d) = d.
Proof. unfold App.from_day_serial, App.to_day_serial, add_days, days_between. lia. Qed.

Lemma to_from_day_serial n : App.to_day_serial (App.from_day_serial n) = n.
Proof. unfold App.from_day_serial, App.to_day_serial, add_days, days_between. lia. Qed.

Lemma elem_of_app_add_trip start end_ absent t x :
  x ∈ App.absent_add_trip start end_ absent t ↔
  x ∈ absent ∨ ∃ d, x = App.to_day_serial d ∧ covered_inclusive [t] start end_ d.
Proof.
  unfold App.absent_add_trip, covered_inclusive.
  destruct t as [[out|] [back|]].
  - destruct (_ || _) eqn:E.
    + split; [auto|]. intros [H|(d & -> & o & b & Hin & H1 & H2)]; [done|].
      apply list_elem_of_singleton in Hin. simplify_eq.
      apply orb_true_iff in E. rewrite !Z.ltb_lt in E. lia.
    + apply orb_false_iff in E. rewrite !Z.ltb_ge in E.
      rewrite elem_of_foldl_add. setoid_rewrite elem_of_app_daterange.
      split; (intros [H|H]; [by left|right]).
      * destruct H as (d & Hd & ->). exists d. split; [done|].
        exists out, back. rewrite list_elem_of_singleton. split; [done|]. lia.
      * destruct H as (d & -> & o & b & Hin & H1 & H2).
        apply list_elem_of_singleton in Hin. simplify_eq.
        exists d. split; [lia|done].
  - split; [auto|]. intros [H|(d & _ & o & b & Hin & _)]; [done|].
    apply list_elem_of_singleton in Hin. simplify_eq.
  - split; [auto|]. intros [H|(d & _ & o & b & Hin & _)]; [done|].
    apply list_elem_of_singleton in Hin. simplify_eq.
  - split; [auto|]. intros [H|(d & _ & o & b & Hin & _)]; [done|].
    apply list_elem_of_singleton in Hin. simplify_eq.
Qed.

Lemma elem_of_policy_add_trip start end_ absent t d :
  d ∈ Policy.absent_add_trip start end_ absent t ↔
  d ∈ absent ∨ covered_whole_day [t] start end_ d.
Proof.
  unfold Policy.absent_add_trip, Policy.normalise_trip, covered_whole_day,
    add_days, sub_days.
  destruct t as [[out|] [back|]]; simpl.
  - assert (Hgen : ∀ o b, o ≤ b → Z.min out back = o → Z.max out back = b →
      d ∈ (if (b - 1 <? start) || (end_ <? o + 1) then absent
           else if Z.max (o + 1) start <=? Z.min (b - 1) end_
                then foldl (λ absent d, {[d]} ∪ absent) absent
                       (Policy.daterange_inclusive (Z.max (o + 1) start)
                                                   (Z.min (b - 1) end_))
                else absent)
      ↔ d ∈ absent ∨ ∃ out0 back0, (Some out0, Some back0) ∈ [(Some out, Some back)]
          ∧ Z.min out0 back0 < d < Z.max out0 back0 ∧ start ≤ d ≤ end_).
    { intros o b Hob Ho Hb.
      assert (Hcov : (∃ out0 back0, (Some out0, Some back0) ∈ [(Some out, Some back)]
          ∧ Z.min out0 back0 < d < Z.max out0 back0 ∧ start ≤ d ≤ end_)
          ↔ o < d < b ∧ start ≤ d ≤ end_).
      { split.
        - intros (o' & b' & Hin & H1 & H2).
          apply list_elem_of_singleton in Hin. simplify_eq. lia.
        - intros [H1 H2]. exists out, back.
          rewrite list_elem_of_singleton. split; [done|]. lia. }
      rewrite Hcov.
      destruct (_ || _) eqn:E.
      - apply orb_true_iff in E. rewrite !Z.ltb_lt in E. split; [auto|]. intros [?|?]; [done|lia].
      - apply orb_false_iff in E. rewrite !Z.ltb_ge in E.
        destruct (Z.leb_spec (Z.max (o + 1) start) (Z.min (b - 1) end_)).
        + rewrite (elem_of_foldl_add (λ d, d)).
          setoid_rewrite elem_of_policy_daterange.
          split; (intros [?|H']; [by left|right]).
          * destruct H' as (d' & ? & ->). lia.
          * exists d. split; [lia|done].
        + split; [auto|]. intros [?|?]; [done|lia]. }
    destruct (Z.ltb_spec back out).
    + apply Hgen; lia.
    + apply Hgen; lia.
  - split; [auto|]. intros [H|(o & b & Hin & _)]; [done|].
    apply list_elem_of_singleton in Hin. simplify_eq.
  - split; [auto|]. intros [H|(o & b & Hin & _)]; [done|].
    apply list_elem_of_singleton in Hin. simplify_eq.
  - split; [auto|]. intros [H|(o & b & Hin & _)]; [done|].
    apply list_elem_of_singleton in Hin. simplify_eq.
Qed.

Lemma covered_inclusive_cons t trips start end_ d :
  covered_inclusive (t :: trips) start end_ d ↔
  covered_inclusive [t] start end_ d ∨ covered_inclusive trips start end_ d.
Proof.
  unfold covered_inclusive. setoid_rewrite elem_of_cons.
  setoid_rewrite elem_of_nil. naive_solver.
Qed.

Lemma covered_whole_day_cons t trips start end_ d :
  covered_whole_day (t :: trips) start end_ d ↔
  covered_whole_day [t] start end_ d ∨ covered_whole_day trips start end_ d.
Proof.
  unfold covered_whole_day. setoid_rewrite elem_of_cons.
  setoid_rewrite elem_of_nil. naive_solver.
Qed.

Lemma elem_of_app_foldl trips start end_ acc x :
  x ∈ foldl (App.absent_add_trip start end_) acc trips ↔
  x ∈ acc ∨ ∃ d, x = App.to_day_serial d ∧ covered_inclusive trips start end_ d.
Proof.
  revert acc. induction trips as [|t trips IH]; intros acc; simpl.
  - split; [auto|]. intros [?|(d & _ & o & b & Hin & _)]; [done|].
    by apply elem_of_nil in Hin.
  - rewrite IH, elem_of_app_add_trip.
    setoid_rewrite (covered_inclusive_cons t trips). naive_solver.
Qed.

Lemma elem_of_policy_foldl trips start end_ acc d :
  d ∈ foldl (Policy.absent_add_trip start end_) acc trips ↔
  d ∈ acc ∨ covered_whole_day trips start end_ d.
Proof.
  revert acc. induction trips as [|t trips IH]; intros acc; simpl.
  - split; [auto|]. intros [?|(o & b & Hin & _)]; [done|].
    by apply elem_of_nil in Hin.
  - rewrite IH, elem_of_policy_add_trip, (covered_whole_day_cons t trips). tauto.
Qed.

(** The serials in [absent] are those of the days covered, ends included. *)
Lemma elem_of_app_absent_days trips start end_ x :
  x ∈ App.absent_days trips start end_ ↔
  covered_inclusive trips start end_ (App.from_day_serial x).
Proof.
  unfold App.absent_days. rewrite elem_of_app_foldl. split.
  - intros [H|(d & -> & H)]; [set_solver|]. by rewrite from_to_day_serial.
  - intros H. right. exists (App.from_day_serial x). by rewrite to_from_day_serial.
Qed.

(** The dates in the UKVI set are the whole days away. *)
Lemma elem_of_count_absences_ukvi trips start end_ d :
  d ∈ Policy.count_absences_ukvi trips start end_ ↔
  covered_whole_day trips start end_ d.
Proof.
  unfold Policy.count_absences_ukvi. rewrite elem_of_policy_foldl. set_solver.
Qed.

Lemma covered_whole_day_inclusive trips start end_ d :
  covered_whole_day trips start end_ d → covered_inclusive trips start end_ d.
Proof. intros (o & b & Hin & H1 & H2). exists o, b. split; [done|]. lia. Qed.

(** A set and its image under an injective map have the same size. *)
Lemma size_set_map_inj (f : Z → Z) (X : gset Z) :
  (∀ x y, f x = f y → x = y) → size (set_map f X : gset Z) = size X.
Proof.
  intros Hinj. induction X as [|x X Hx IH] using set_ind_L.
  - by rewrite set_map_empty, !size_empty.
  - rewrite set_map_union_L, set_map_singleton_L.
    rewrite !size_union, !size_singleton, IH; [done| |].
    + set_solver.
    + set_unfold. intros y -> (x' & Heq & Hx'). apply Hinj in Heq. by subst.
Qed.

End AbsentFacts.

(** ** The two-pointer scan *)

Module ScanFacts.

Lemma enum_from_cons a x l : enum_from a (x :: l) = (a, x) :: enum_from (S a) l.
Proof. reflexivity. Qed.

Lemma enumerate_enum_from days : Policy.enumerate days = enum_from 0 days.
Proof. reflexivity. Qed.

Lemma take_enum_from n a l : take n (enum_from a l) = enum_from a (take n l).
Proof.
  revert a l. induction n as [|n IH]; intros a [|x l]; try reflexivity.
  rewrite enum_from_cons. simpl. by rewrite IH.
Qed.

Lemma advance_spec fuel (days : list Z) sw j i x :
  (j ≤ i)%nat → days !! i = Some x → sw ≤ x → (i - j ≤ fuel)%nat →
  ∃ j', Policy.advance fuel days sw j = Some j' ∧ (j ≤ j' ≤ i)%nat
    ∧ (∀ k y, (j ≤ k < j')%nat → days !! k = Some y → y < sw)
    ∧ (∃ y, days !! j' = Some y ∧ sw ≤ y).
Proof.
  revert j. induction fuel as [|fuel IH]; intros j Hji Hi Hx Hfuel.
  - assert (j = i) as -> by lia. simpl. rewrite Hi.
    destruct (Z.ltb_spec x sw); [lia|].
    exists i. repeat split; [lia..| |eauto]. intros; lia.
  - simpl.
    destruct (lookup_lt_is_Some_2 days j) as [y Hy].
    { apply lookup_lt_Some in Hi. lia. }
    rewrite Hy. destruct (Z.ltb_spec y sw) as [Hlt|Hge].
    + assert (j ≠ i) by (intros ->; simplify_eq; lia).
      destruct (IH (S j)) as (j' & Hadv & Hb & Hlow & Hat); [lia|done|done|lia|].
      exists j'. repeat split; [done|lia..| |done].
      intros k z Hk Hz. destruct (decide (k = j)) as [->|]; [by simplify_eq|].
      apply (Hlow k); [lia|done].
    + exists j. repeat split; [lia..| |eauto]. intros; lia.
Qed.

Lemma window_scan_cons days i d todo j best best_end :
  Policy.window_scan days ((i, d) :: todo) j best best_end =
  match Policy.advance (length days) days (sub_days d 364) j with
  | None => None
  | Some j' =>
      let count := Z.of_nat i - Z.of_nat j' + 1 in
      if best <? count then Policy.window_scan days todo j' count (Some d)
      else Policy.window_scan days todo j' best best_end
  end.
Proof. reflexivity. Qed.

(** The scan over a stretch [l] of the list never fails, and leaves [j] at
    most at the last index visited. *)
Lemma window_scan_segment (pre l post : list Z) j best best_end :
  (j ≤ length pre)%nat →
  ∃ j' best' best_end',
    Policy.window_scan (pre ++ l ++ post) (enum_from (length pre) l) j best best_end
      = Some (j', best', best_end')
    ∧ (j ≤ j')%nat ∧ (l = [] ∧ j' = j ∨ l ≠ [] ∧ (j' ≤ length pre + length l - 1)%nat).
Proof.
  revert pre j best best_end.
  induction l as [|x l IH]; intros pre j best best_end Hj.
  - exists j, best, best_end. simpl. auto.
  - rewrite enum_from_cons, window_scan_cons.
    specialize (IH (pre ++ [x])).
    rewrite <- !(assoc_L (++) pre [x]), length_app in IH. simpl in IH.
    replace (length pre + 1)%nat with (S (length pre)) in IH by lia.
    change ((x :: l) ++ post) with (x :: l ++ post).
    set (days := pre ++ x :: l ++ post) in *.
    assert (Hx : days !! length pre = Some x).
    { subst days. rewrite lookup_app_r, Nat.sub_diag by lia. reflexivity. }
    destruct (advance_spec (length days) days (sub_days x 364) j (length pre) x)
      as (j' & -> & Hb & _);
      [done|done|unfold sub_days; lia|apply lookup_lt_Some in Hx; lia|].
    cbv zeta. specialize (IH j').
    destruct (Z.ltb_spec best (Z.of_nat (length pre) - Z.of_nat j' + 1)).
    + destruct (IH (Z.of_nat (length pre) - Z.of_nat j' + 1) (Some x))
        as (j'' & b'' & e'' & -> & Hj'' & Hl); [lia|].
      exists j'', b'', e''. repeat split; [lia|]. right. split; [done|].
      simpl. destruct Hl as [[-> ->]|[_ Hl]]; simpl; lia.
    + destruct (IH best best_end)
        as (j'' & b'' & e'' & -> & Hj'' & Hl); [lia|].
      exists j'', b'', e''. repeat split; [lia|]. right. split; [done|].
      simpl. destruct Hl as [[-> ->]|[_ Hl]]; simpl; lia.
Qed.

Lemma filter_none (P : Z → Prop) `{!∀ x, Decision (P x)} (l : list Z) :
  Forall (λ y, ¬ P y) l → filter P l = [].
Proof.
  induction 1 as [|y l Hy _ IH]; [done|]. by rewrite filter_cons_False.
Qed.

Lemma filter_all (P : Z → Prop) `{!∀ x, Decision (P x)} (l : list Z) :
  Forall P l → filter P l = l.
Proof.
  induction 1 as [|y l Hy _ IH]; [done|]. by rewrite filter_cons_True, IH.
Qed.

Lemma length_filter_mono (P Q : Z → Prop) `{!∀ x, Decision (P x)}
    `{!∀ x, Decision (Q x)} (l : list Z) :
  (∀ d, d ∈ l → P d → Q d) → (length (filter P l) ≤ length (filter Q l))%nat.
Proof.
  induction l as [|y l IH]; intros Hpq; [done|].
  assert (IH' : (length (filter P l) ≤ length (filter Q l))%nat).
  { apply IH. intros d Hd. apply Hpq. by right. }
  destruct (decide (P y)) as [Hp|Hp].
  - rewrite (filter_cons_True P), (filter_cons_True Q); [simpl; lia| |done].
    apply Hpq; [by left|done].
  - rewrite (filter_cons_False P) by done.
    destruct (decide (Q y)).
    + rewrite (filter_cons_True Q) by done. simpl. lia.
    + by rewrite (filter_cons_False Q).
Qed.

Lemma list_max_elem (l : list Z) : l ≠ [] → ∃ x, x ∈ l ∧ ∀ y, y ∈ l → y ≤ x.
Proof.
  induction l as [|a l IH]; [done|]. intros _.
  destruct l as [|b l].
  - exists a. split; [by left|]. intros y Hy. apply list_elem_of_singleton in Hy. lia.
  - destruct IH as (x & Hx & Hmax); [done|].
    destruct (Z.le_gt_cases a x).
    + exists x. split; [by right|]. intros y Hy.
      apply elem_of_cons in Hy as [->|Hy]; [done|by apply Hmax].
    + exists a. split; [by left|]. intros y Hy.
      apply elem_of_cons in Hy as [->|Hy]; [lia|]. specialize (Hmax y Hy). lia.
Qed.

(** Any 365 days hold no more of the list than the 365 days that end on the
    last entry they contain. *)
Lemma span_le_wcount (l : list Z) (s : Z) :
  ∃ b, (b = 0 ∨ ∃ x, x ∈ l ∧ b = wcount l x) ∧
       Z.of_nat (length (filter (λ d, s ≤ d ≤ s + 364) l)) ≤ b.
Proof.
  destruct (filter (λ d, s ≤ d ≤ s + 364) l) as [|a f] eqn:E.
  - exists 0. split; [by left|done].
  - destruct (list_max_elem (a :: f)) as (x & Hx & Hmax); [done|].
    rewrite <- E in Hx, Hmax. apply list_elem_of_filter in Hx as [Hxs Hxl].
    exists (wcount l x). split; [right; by exists x|].
    rewrite <- E. unfold wcount. apply inj_le, length_filter_mono.
    intros d Hd Hds. specialize (Hmax d). rewrite list_elem_of_filter in Hmax.
    specialize (Hmax (conj Hds Hd)). lia.
Qed.

Lemma wcount_segment (days : list Z) j' a x :
  increasing days → (j' ≤ a)%nat → days !! a = Some x →
  (∀ k y, (k < j')%nat → days !! k = Some y → y < x - 364) →
  (∃ y, days !! j' = Some y ∧ x - 364 ≤ y) →
  wcount days x = Z.of_nat a - Z.of_nat j' + 1.
Proof.
  intros Hinc Hj Ha Hlow (y0 & Hy0 & Hge).
  pose proof (lookup_lt_Some _ _ _ Ha) as Hlen.
  unfold wcount.
  rewrite <- (take_drop (S a) days) at 1.
  rewrite <- (take_drop j' (take (S a) days)) at 1.
  rewrite !filter_app, !length_app.
  rewrite (filter_none _ (take j' _)), (filter_all _ (drop j' _)), (filter_none _ (drop (S a) _)).
  - rewrite length_drop, length_take. cbn [length]. lia.
  - apply Forall_lookup. intros k y Hk. rewrite lookup_drop in Hk.
    assert (x < y) by (apply (Hinc a (S a + k)%nat); [lia|done..]). lia.
  - apply Forall_lookup. intros k y Hk. rewrite lookup_drop in Hk.
    apply lookup_take_Some in Hk as [Hk Hlt].
    split.
    + destruct (decide (k = 0)%nat) as [->|].
      * rewrite Nat.add_0_r in Hk. simplify_eq. done.
      * assert (y0 < y) by (apply (Hinc j' (j' + k)%nat); [lia|done..]). lia.
    + destruct (decide (j' + k = a)%nat) as [Heq|].
      * rewrite Heq in Hk. simplify_eq. lia.
      * assert (y < x) by (apply (Hinc (j' + k)%nat a); [lia|done..]). lia.
  - apply Forall_lookup. intros k y Hk.
    apply lookup_take_Some in Hk as [Hk Hlt].
    apply lookup_take_Some in Hk as [Hk _].
    specialize (Hlow k y Hlt Hk). lia.
Qed.

(** On an increasing list the scan counts, for each entry of the stretch
    [l], the entries within the 365 days ending on it, and keeps the
    greatest count with the first entry that reaches it. *)
Lemma window_scan_increasing (pre l post : list Z) j best best_end :
  increasing (pre ++ l ++ post) →
  (j ≤ length pre)%nat →
  below_windows (pre ++ l ++ post) j (length pre) →
  ∃ j' best' best_end',
    Policy.window_scan (pre ++ l ++ post) (enum_from (length pre) l) j best best_end
      = Some (j', best', best_end')
    ∧ best ≤ best'
    ∧ (∀ x, x ∈ l → wcount (pre ++ l ++ post) x ≤ best')
    ∧ (best' = best ∧ best_end' = best_end
       ∨ ∃ x, x ∈ l ∧ best_end' = Some x ∧ wcount (pre ++ l ++ post) x = best').
Proof.
  revert pre j best best_end.
  induction l as [|x l IH]; intros pre j best best_end Hinc Hj Hlow.
  - exists j, best, best_end. simpl. repeat split; [lia| |by left].
    intros x Hx. by apply elem_of_nil in Hx.
  - rewrite enum_from_cons, window_scan_cons.
    specialize (IH (pre ++ [x])).
    rewrite <- !(assoc_L (++) pre [x]), length_app in IH. simpl in IH.
    replace (length pre + 1)%nat with (S (length pre)) in IH by lia.
    change ((x :: l) ++ post) with (x :: l ++ post) in *.
    set (days := pre ++ x :: l ++ post) in *.
    assert (Hx : days !! length pre = Some x).
    { subst days. rewrite lookup_app_r, Nat.sub_diag by lia. reflexivity. }
    destruct (advance_spec (length days) days (sub_days x 364) j (length pre) x)
      as (j' & -> & Hb & Hadv & Hat);
      [done|done|unfold sub_days; lia|apply lookup_lt_Some in Hx; lia|].
    cbv zeta. unfold sub_days in Hadv, Hat.
    assert (Hbelow : ∀ k y, (k < j')%nat → days !! k = Some y → y < x - 364).
    { intros k y Hk Hy. destruct (decide (k < j)%nat).
      - by apply (Hlow k y (length pre) x).
      - apply (Hadv k); [lia|done]. }
    assert (Hcount : wcount days x = Z.of_nat (length pre) - Z.of_nat j' + 1).
    { apply wcount_segment; [done|lia|done|done|done]. }
    rewrite <- Hcount.
    assert (Hlow' : below_windows days j' (S (length pre))).
    { intros k y i z Hk Hy Hi Hz.
      assert (x < z) by (apply (Hinc (length pre) i); [lia|done..]).
      specialize (Hbelow k y Hk Hy). lia. }
    destruct (Z.ltb_spec best (wcount days x)).
    + destruct (IH j' (wcount days x) (Some x) Hinc ltac:(lia) Hlow')
        as (j'' & b'' & e'' & -> & Hle & Hall & Hbest).
      exists j'', b'', e''. repeat split; [lia| |].
      * intros z Hz. apply elem_of_cons in Hz as [->|Hz]; [done|by apply Hall].
      * right. destruct Hbest as [[-> ->]|(z & Hz & -> & Hw)].
        -- exists x. split; [by left|done].
        -- exists z. split; [by right|done].
    + destruct (IH j' best best_end Hinc ltac:(lia) Hlow')
        as (j'' & b'' & e'' & -> & Hle & Hall & Hbest).
      exists j'', b'', e''. repeat split; [lia| |].
      * intros z Hz. apply elem_of_cons in Hz as [->|Hz]; [lia|by apply Hall].
      * destruct Hbest as [[-> ->]|(z & Hz & -> & Hw)]; [by left|].
        right. exists z. split; [by right|done].
Qed.

Lemma sorted_increasing (l : list Z) :
  StronglySorted Z.le l → NoDup l → increasing l.
Proof.
  induction 1 as [|x l Hs IH Hall]; intros Hnd k1 k2 y1 y2 Hk H1 H2.
  - by rewrite lookup_nil in H1.
  - apply NoDup_cons in Hnd as [Hx Hnd].
    destruct k2 as [|k2]; [lia|]. simpl in H2.
    destruct k1 as [|k1]; simpl in H1.
    + simplify_eq. apply list_elem_of_lookup_2 in H2.
      rewrite Forall_forall in Hall. specialize (Hall y2 H2).
      assert (y1 ≠ y2) by (intros ->; done). lia.
    + apply (IH Hnd k1 k2); [lia|done..].
Qed.

Lemma merge_sort_increasing (l : list Z) : NoDup l → increasing (merge_sort Z.le l).
Proof.
  intros Hnd. apply sorted_increasing.
  - apply StronglySorted_merge_sort; apply _.
  - by rewrite merge_sort_Permutation.
Qed.

Lemma size_filter_elements (P : Z → Prop) `{!∀ x, Decision (P x)} (X : gset Z) (l : list Z) :
  l ≡ₚ elements X → size (filter P X) = length (filter P l).
Proof.
  intros Hl. unfold size, set_size. simpl. apply Permutation_length.
  apply NoDup_Permutation.
  - apply NoDup_elements.
  - apply NoDup_filter. rewrite Hl. apply NoDup_elements.
  - intros x. rewrite elem_of_elements, elem_of_filter, list_elem_of_filter, Hl,
      elem_of_elements. done.
Qed.

Lemma wcount_count_in (absent : gset Z) (l : list Z) x :
  l ≡ₚ elements absent → wcount l x = count_in absent (x - 364) x.
Proof. intros Hl. unfold wcount, count_in. by rewrite (size_filter_elements _ absent l). Qed.

End ScanFacts.

(** ** The fixed anniversary blocks *)

Module BlockFacts.
Import CalendarFacts.



(** The loop of [build_fixed_blocks], given rounds enough for the days left. *)
Lemma policy_block_loop_spec fuel absent_set fivey_end cap rows i cur :
  (cur ≤ fivey_end → (Z.to_nat (fivey_end - cur) < fuel)%nat) →
  ∃ out,
    Policy.block_loop fuel absent_set fivey_end cap rows i cur = Some (rows ++ out)
    ∧ (∀ k, (k < length out)%nat ↔ anniversary k cur ≤ fivey_end)
    ∧ (∀ k r, out !! k = Some r →
         Policy.Year r = i + Z.of_nat k + 1
         ∧ Policy.Start r = anniversary k cur
         ∧ Policy.End_ r = Z.min (anniversary (S k) cur - 1) fivey_end
         ∧ Policy.Whole_days_absent r
           = Policy.block_count absent_set (Policy.Start r) (Policy.End_ r)
         ∧ Policy.Status r
           = if cap <? Policy.Whole_days_absent r then "BREACH" else "OK").
Proof.
  revert rows i cur. induction fuel as [|fuel IH]; intros rows i cur Hfuel.
  - assert (fivey_end < cur) by lia.
    exists []. simpl. destruct (Z.leb_spec cur fivey_end); [lia|].
    rewrite app_nil_r. repeat split; try done.
    + simpl. lia.
    + intros Hk. pose proof (anniversary_lower k cur). lia.
  - simpl. destruct (Z.leb_spec cur fivey_end) as [Hle|Hgt].
    + pose proof (add_years_1_bounds cur) as Hnext.
      match goal with
      | |- context [Policy.block_loop fuel _ _ _ (rows ++ [?r0]) _ _] => set (r := r0)
      end.
      destruct (IH (rows ++ [r]) (i + 1) (add_years 1 cur)) as (out & -> & Hlen & Hrows);
        [lia|].
      exists (r :: out). split; [by rewrite <- (assoc_L (++))|]. split.
      * intros [|k]; simpl.
        -- split; [done|lia].
        -- rewrite <- Nat.succ_lt_mono, Hlen. by rewrite <- anniversary_succ_r.
      * intros [|k] r' Hr'; simpl in Hr'.
        -- simplify_eq. unfold sub_days. simpl. repeat split; [lia|done..].
        -- destruct (Hrows k r' Hr') as (Hy & Hs & He & Hc).
           rewrite <- !anniversary_succ_r in *. repeat split; [lia|done|done|tauto|tauto].
    + exists []. rewrite app_nil_r. repeat split; try done.
      * simpl. lia.
      * intros Hk. pose proof (anniversary_lower k cur). lia.
Qed.

(** The loop over blocks in [compute_absence]. *)
Lemma app_fixed_loop_spec fuel absent_sorted end_ cap cur fixed :
  (cur ≤ end_ → (Z.to_nat (end_ - cur) < fuel)%nat) →
  ∃ out,
    App.fixed_loop fuel absent_sorted end_ cap cur fixed = Some (fixed ++ out)
    ∧ (∀ k, (k < length out)%nat ↔ anniversary k cur ≤ end_)
    ∧ (∀ k r, out !! k = Some r →
         App.Year r = Z.of_nat (length fixed) + Z.of_nat k + 1
         ∧ App.Start r = anniversary k cur
         ∧ App.End_ r = Z.min (anniversary (S k) cur - 1) end_
         ∧ App.Absent_days r
           = App.block_days absent_sorted (App.Start r) (App.End_ r)
         ∧ App.Status r = if cap <? App.Absent_days r then "BREACH" else "OK").
Proof.
  revert fixed cur. induction fuel as [|fuel IH]; intros fixed cur Hfuel.
  - assert (end_ < cur) by lia.
    exists []. simpl. destruct (Z.leb_spec cur end_); [lia|].
    rewrite app_nil_r. repeat split; try done.
    + simpl. lia.
    + intros Hk. pose proof (anniversary_lower k cur). lia.
  - simpl. destruct (Z.leb_spec cur end_) as [Hle|Hgt].
    + pose proof (add_years_1_bounds cur) as Hnext.
      match goal with
      | |- context [App.fixed_loop fuel _ _ _ _ (fixed ++ [?r0])] => set (r := r0)
      end.
      destruct (IH (fixed ++ [r]) (add_years 1 cur)) as (out & -> & Hlen & Hrows);
        [lia|].
      exists (r :: out). split; [by rewrite <- (assoc_L (++))|]. split.
      * intros [|k]; simpl.
        -- split; [done|lia].
        -- rewrite <- Nat.succ_lt_mono, Hlen. by rewrite <- anniversary_succ_r.
      * intros [|k] r' Hr'; simpl in Hr'.
        -- simplify_eq. unfold sub_days. simpl. repeat split; [lia|done..].
        -- destruct (Hrows k r' Hr') as (Hy & Hs & He & Hc).
           rewrite length_app in Hy. simpl in Hy.
           rewrite <- !anniversary_succ_r in *. repeat split; [lia|done|done|tauto|tauto].
    + exists []. rewrite app_nil_r. repeat split; try done.
      * simpl. lia.
      * intros Hk. pose proof (anniversary_lower k cur). lia.
Qed.

End BlockFacts.

(** ** The two programs as a whole *)

Module CoreFacts.
Import CalendarFacts AbsentFacts ScanFacts BlockFacts.

Lemma count_in_nonneg absent lo hi : 0 ≤ count_in absent lo hi.
Proof. unfold count_in. lia. Qed.

Lemma wcount_pos (days : list Z) x : x ∈ days → 1 ≤ wcount days x.
Proof.
  intros Hx. unfold wcount.
  assert (Hin : x ∈ filter (λ d, x - 364 ≤ d ≤ x) days).
  { apply list_elem_of_filter. split; [lia|done]. }
  destruct (filter _ days); [by apply elem_of_nil in Hin|simpl; lia].
Qed.

Lemma rolling_12m_max_nonempty (absent_days : list Z) :
  absent_days ≠ [] →
  Policy.rolling_12m_max absent_days =
  match Policy.window_scan (merge_sort Z.le absent_days)
          (Policy.enumerate (merge_sort Z.le absent_days)) 0%nat 0 None with
  | None => None
  | Some (_, best, best_end) =>
      Some (best, (λ e, sub_days e 364) <$> best_end, best_end)
  end.
Proof. by destruct absent_days. Qed.

(** What the scan of [rolling_12m_max] returns on the days of a set, in
    whatever order they are listed. *)
Lemma rolling_12m_max_spec (absent : gset Z) (absent_days : list Z) :
  absent_days ≡ₚ elements absent →
  ∃ max_count window_start window_end,
    Policy.rolling_12m_max absent_days = Some (max_count, window_start, window_end)
    ∧ (∀ s, count_in absent s (s + 364) ≤ max_count)
    ∧ match window_end with
      | Some e => e ∈ absent ∧ window_start = Some (e - 364)
                  ∧ count_in absent (e - 364) e = max_count
      | None => absent = ∅ ∧ max_count = 0 ∧ window_start = None
      end.
Proof.
  intros Hperm.
  destruct (decide (absent_days = [])) as [->|Hne].
  - exists 0, None, None. split; [done|].
    assert (absent = ∅) as ->.
    { apply leibniz_equiv, elements_empty_inv.
      by apply Permutation_nil in Hperm. }
    split; [|done]. intros s. unfold count_in.
    by rewrite (size_filter_elements _ ∅ []).
  - rewrite (rolling_12m_max_nonempty _ Hne).
    set (days := merge_sort Z.le absent_days).
    assert (Hdays : days ≡ₚ elements absent).
    { subst days. by rewrite merge_sort_Permutation. }
    assert (Hinc : increasing days).
    { apply merge_sort_increasing. rewrite Hperm. apply NoDup_elements. }
    destruct (window_scan_increasing [] days [] 0%nat 0 None)
      as (j' & best & best_end & Hscan & Hle & Hall & Hbest).
    { simpl. by rewrite app_nil_r. }
    { simpl. lia. }
    { intros k y i x Hk. lia. }
    simpl in Hscan, Hall, Hbest. rewrite app_nil_r in Hscan, Hall, Hbest.
    change (enum_from 0 days) with (Policy.enumerate days) in Hscan.
    rewrite Hscan.
    exists best, ((λ e, sub_days e 364) <$> best_end), best_end.
    split; [done|]. split.
    + intros s. unfold count_in. rewrite (size_filter_elements _ absent days Hdays).
      destruct (span_le_wcount days s) as (b & [->|(x & Hx & ->)] & Hb); [lia|].
      specialize (Hall x Hx). lia.
    + assert (Ha : 1 ≤ best).
      { destruct absent_days as [|a l']; [done|].
        assert (Hin : a ∈ days).
        { rewrite Hdays, <- Hperm. by left. }
        pose proof (wcount_pos days a Hin). specialize (Hall a Hin). lia. }
      destruct Hbest as [[-> _]|(x & Hx & -> & Hw)]; [lia|].
      simpl. split; [|split; [done|]].
      * rewrite Hdays in Hx. by apply elem_of_elements in Hx.
      * by rewrite <- (wcount_count_in absent days x Hdays).
Qed.

Lemma app_advance_eq fuel (l : list Z) sw j :
  App.advance fuel l sw j = Policy.advance fuel l sw j.
Proof. reflexivity. Qed.

(** The scan of [compute_absence] is the scan of [rolling_12m_max] without
    the record of where the maximum was reached. *)
Lemma app_window_scan_eq (days : list Z) n a j best best_end :
  (a + n ≤ length days)%nat →
  App.window_scan days (seq a n) j best =
  (λ r, (r.1.1, r.1.2)) <$>
    Policy.window_scan days (enum_from a (take n (drop a days))) j best best_end.
Proof.
  revert a j best best_end. induction n as [|n IH]; intros a j best best_end Hlen.
  - rewrite take_0. reflexivity.
  - destruct (lookup_lt_is_Some_2 days a) as [x Hx]; [lia|].
    rewrite (drop_S _ _ _ Hx). simpl take. rewrite enum_from_cons, window_scan_cons.
    simpl. rewrite Hx, app_advance_eq. unfold sub_days.
    destruct (Policy.advance _ _ _ _) as [j'|]; [|done].
    destruct (Z.ltb_spec best (Z.of_nat a - Z.of_nat j' + 1)); apply IH; lia.
Qed.

Lemma app_window_scan_enumerate (days : list Z) :
  App.window_scan days (seq 0 (length days)) 0%nat 0 =
  (λ r, (r.1.1, r.1.2)) <$> Policy.window_scan days (Policy.enumerate days) 0%nat 0 None.
Proof.
  rewrite (app_window_scan_eq days (length days) 0 0%nat 0 None) by lia.
  by rewrite drop_0, firstn_all.
Qed.

Lemma block_days_filter (absent_sorted : list Z) cur_start cur_end :
  App.block_days absent_sorted cur_start cur_end =
  Z.of_nat (length (filter (λ n, cur_start ≤ App.from_day_serial n ≤ cur_end)
                           absent_sorted)).
Proof.
  unfold App.block_days.
  assert (Hgen : ∀ acc,
    foldl (λ days n,
             let d := App.from_day_serial n in
             if (cur_start <=? d) && (d <=? cur_end) then days + 1 else days)
          acc absent_sorted
    = acc + Z.of_nat (length (filter (λ n, cur_start ≤ App.from_day_serial n ≤ cur_end)
                                     absent_sorted))).
  { induction absent_sorted as [|n l IH]; intros acc; simpl; [lia|].
    rewrite IH.
    destruct (Z.leb_spec cur_start (App.from_day_serial n));
      destruct (Z.leb_spec (App.from_day_serial n) cur_end); simpl;
      (rewrite filter_cons_True by lia; simpl; lia)
      || (rewrite filter_cons_False by lia; lia). }
  apply Hgen.
Qed.

Lemma block_count_count_in (absent_set : gset Z) year_start year_end :
  Policy.block_count absent_set year_start year_end
  = count_in absent_set year_start year_end.
Proof.
  unfold Policy.block_count, count_in.
  by rewrite (size_filter_elements _ absent_set (elements absent_set)).
Qed.

(** [compute_absence] returns, and what it returns. *)
Lemma compute_absence_spec trips start end_ cap :
  let absent := App.absent_days trips start end_ in
  let absent_sorted := merge_sort Z.le (elements absent) in
  ∃ max_count window_start window_end fixed,
    Policy.rolling_12m_max (elements absent) = Some (max_count, window_start, window_end)
    ∧ (∀ k, (k < length fixed)%nat ↔ anniversary k start ≤ end_)
    ∧ (∀ k r, fixed !! k = Some r →
         App.Year r = Z.of_nat k + 1
         ∧ App.Start r = anniversary k start
         ∧ App.End_ r = Z.min (anniversary (S k) start - 1) end_
         ∧ App.Absent_days r
           = App.block_days absent_sorted (App.Start r) (App.End_ r)
         ∧ App.Status r = if cap <? App.Absent_days r then "BREACH" else "OK")
    ∧ App.compute_absence trips start end_ cap
      = Some {| App.total_absent_days := Z.of_nat (size absent);
                App.max_in_any_window := max_count;
                App.fixed_blocks := fixed;
                App.breach := cap <? max_count |}.
Proof.
  intros absent absent_sorted.
  destruct (app_fixed_loop_spec (App.block_fuel start end_) absent_sorted end_ cap start [])
    as (fixed & Hfixed & Hlen & Hrows).
  { unfold App.block_fuel, days_between. lia. }
  change ([] ++ fixed) with fixed in Hfixed.
  unfold App.compute_absence. fold absent. fold absent_sorted. rewrite Hfixed.
  rewrite app_window_scan_enumerate.
  destruct (rolling_12m_max_spec absent (elements absent)) as (m & ws & we & Hr & _);
    [done|].
  exists m, ws, we, fixed. split; [done|]. split; [done|]. split; [done|].
  destruct (decide (elements absent = [])) as [El|Hne].
  - subst absent_sorted. rewrite El in *. simpl in Hr. by simplify_eq.
  - rewrite (rolling_12m_max_nonempty _ Hne) in Hr.
    fold absent_sorted in Hr.
    destruct (Policy.window_scan absent_sorted _ _ _ _) as [[[j b] e]|]; [|done].
    simpl. by simplify_eq.
Qed.

(** The rows of [build_fixed_blocks]. *)
Lemma build_fixed_blocks_spec absent_set res_start fivey_end cap :
  ∃ rows,
    Policy.build_fixed_blocks absent_set res_start fivey_end cap = Some rows
    ∧ (∀ k, (k < length rows)%nat ↔ anniversary k res_start ≤ fivey_end)
    ∧ (∀ k r, rows !! k = Some r →
         Policy.Year r = Z.of_nat k + 1
         ∧ Policy.Start r = anniversary k res_start
         ∧ Policy.End_ r = Z.min (anniversary (S k) res_start - 1) fivey_end
         ∧ Policy.Whole_days_absent r
           = Policy.block_count absent_set (Policy.Start r) (Policy.End_ r)
         ∧ Policy.Status r
           = if cap <? Policy.Whole_days_absent r then "BREACH" else "OK").
Proof.
  destruct (policy_block_loop_spec (Policy.block_fuel res_start fivey_end) absent_set
              fivey_end cap [] 0 res_start) as (rows & Hloop & Hlen & Hrows).
  { unfold Policy.block_fuel, days_between. lia. }
  exists rows. split; [done|]. split; [done|].
  intros k r Hr. destruct (Hrows k r Hr) as (Hy & Hrest). split; [lia|done].
Qed.



End CoreFacts.

(** ** The specification's properties *)

Import CalendarFacts AbsentFacts ScanFacts BlockFacts CoreFacts.

Lemma elem_of_day_span lo hi d : d ∈ day_span lo hi ↔ lo ≤ d ≤ hi.
Proof. unfold day_span. rewrite elem_of_list_to_set, elem_of_seqZ. lia. Qed.

Lemma elem_of_union_inclusive trips start end_ d :
  d ∈ ⋃ (clipped_span_inclusive start end_ <$> trips) ↔
  covered_inclusive trips start end_ d.
Proof.
  rewrite elem_of_union_list. unfold covered_inclusive. split.
  - intros (X & HX & Hd). apply list_elem_of_fmap in HX as ([[o|] [b|]] & -> & Ht);
      simpl in Hd; try by apply elem_of_empty in Hd.
    apply elem_of_intersection in Hd. rewrite !elem_of_day_span in Hd.
    exists o, b. split; [done|lia].
  - intros (o & b & Ht & H1 & H2).
    exists (clipped_span_inclusive start end_ (Some o, Some b)). split.
    + apply list_elem_of_fmap. by exists (Some o, Some b).
    + simpl. apply elem_of_intersection. rewrite !elem_of_day_span. lia.
Qed.

Lemma elem_of_union_whole_day trips start end_ d :
  d ∈ ⋃ (clipped_span_whole_day start end_ <$> trips) ↔
  covered_whole_day trips start end_ d.
Proof.
  rewrite elem_of_union_list. unfold covered_whole_day. split.
  - intros (X & HX & Hd). apply list_elem_of_fmap in HX as ([[o|] [b|]] & -> & Ht);
      simpl in Hd; try by apply elem_of_empty in Hd.
    apply elem_of_intersection in Hd. rewrite !elem_of_day_span in Hd.
    exists o, b. split; [done|lia].
  - intros (o & b & Ht & H1 & H2).
    exists (clipped_span_whole_day start end_ (Some o, Some b)). split.
    + apply list_elem_of_fmap. by exists (Some o, Some b).
    + simpl. apply elem_of_intersection. rewrite !elem_of_day_span. lia.
Qed.

(** The set [absent] of [compute_absence] holds the day serials of the union
    of the clipped spans. *)
Lemma app_absent_days_union trips start end_ :
  App.absent_days trips start end_
  = set_map App.to_day_serial (⋃ (clipped_span_inclusive start end_ <$> trips)).
Proof.
  apply set_eq. intros x.
  rewrite elem_of_app_absent_days, elem_of_map.
  setoid_rewrite elem_of_union_inclusive. split.
  - intros H. exists (App.from_day_serial x). by rewrite to_from_day_serial.
  - intros (d & -> & H). by rewrite from_to_day_serial.
Qed.

Lemma count_absences_ukvi_union trips start end_ :
  Policy.count_absences_ukvi trips start end_
  = ⋃ (clipped_span_whole_day start end_ <$> trips).
Proof.
  apply set_eq. intros d.
  by rewrite elem_of_count_absences_ukvi, elem_of_union_whole_day.
Qed.

(** C1 (rolling maximality).  For every set of absent days,
    [rolling_12m_max] returns a [max_count] that no 365 consecutive days
    exceed: for every first day [s], the span from [s] to [s + 364] holds at
    most [max_count] absent days.  When the set is not empty a window end [e]
    is reported, the window start is [e - 364] and the window from [e - 364]
    to [e] holds exactly [max_count] absent days; when it is empty the count
    is 0 and no window is reported.  The scan inside [compute_absence] does
    the same for the set of day serials it builds: no 365 consecutive days
    hold more than [max_in_any_window], and unless the set is empty the 365
    days ending on one of its days hold exactly that many. *)
Theorem C1_rolling_maximality (absent : gset Z) (trips : list trip)
    (start end_ : date) (cap : Z) :
  (∃ max_count window_start window_end,
      Policy.rolling_12m_max (elements absent)
        = Some (max_count, window_start, window_end)
      ∧ (∀ s, count_in absent s (s + 364) ≤ max_count)
      ∧ match window_end with
        | Some e => e ∈ absent ∧ window_start = Some (e - 364)
                    ∧ count_in absent (e - 364) e = max_count
        | None => absent = ∅ ∧ max_count = 0 ∧ window_start = None
        end)
  ∧ (∃ r, App.compute_absence trips start end_ cap = Some r
          ∧ (∀ s, count_in (App.absent_days trips start end_) s (s + 364)
                  ≤ App.max_in_any_window r)
          ∧ (App.absent_days trips start end_ = ∅ ∧ App.max_in_any_window r = 0
             ∨ ∃ e, e ∈ App.absent_days trips start end_
                    ∧ count_in (App.absent_days trips start end_) (e - 364) e
                      = App.max_in_any_window r)).
Proof.
  split.
  - destruct (rolling_12m_max_spec absent (elements absent))
      as (m & ws & we & Hr & Hmax & Hwin); [done|].
    by exists m, ws, we.
  - destruct (compute_absence_spec trips start end_ cap)
      as (m & ws & we & fixed & Hr & _ & _ & Hc).
    destruct (rolling_12m_max_spec (App.absent_days trips start end_)
                (elements (App.absent_days trips start end_)))
      as (m' & ws' & we' & Hr' & Hmax & Hwin); [done|].
    rewrite Hr in Hr'. simplify_eq.
    eexists. split; [exact Hc|]. cbn [App.max_in_any_window]. split; [done|].
    destruct we' as [e|].
    + right. exists e. tauto.
    + left. tauto.
Qed.

(** C3 (policy ordering).  For every trip list and every window, the UKVI
    materializer counts at most as many absent days as the inclusive one
    reports in [total_absent_days]. *)
Theorem C3_policy_ordering (trips : list trip) (start end_ : date) (cap : Z) :
  ∃ r, App.compute_absence trips start end_ cap = Some r
       ∧ Z.of_nat (size (Policy.count_absences_ukvi trips start end_))
         ≤ App.total_absent_days r.
Proof.
  destruct (compute_absence_spec trips start end_ cap)
    as (m & ws & we & fixed & _ & _ & _ & Hc).
  eexists. split; [exact Hc|]. simpl. apply inj_le.
  rewrite <- (size_set_map_inj App.to_day_serial) by apply to_day_serial_inj.
  apply subseteq_size. intros x Hx.
  apply elem_of_map in Hx as (d & -> & Hd).
  apply elem_of_count_absences_ukvi, covered_whole_day_inclusive in Hd.
  apply elem_of_app_absent_days. by rewrite from_to_day_serial.
Qed.

(** C4 (whole days only).  Under the UKVI policy a trip in order
    ([departure ≤ return_]) adds, wherever it stands in the trip list,
    exactly the days strictly between its departure and its return that lie
    in the window; when the return is the departure day or the day after, it
    adds nothing. *)
Theorem C4_ukvi_strictly_between (before after : list trip)
    (departure return_ fivey_start fivey_end : date) :
  departure ≤ return_ →
  (∀ d, d ∈ Policy.count_absences_ukvi
              (before ++ (Some departure, Some return_) :: after) fivey_start fivey_end
        ↔ d ∈ Policy.count_absences_ukvi (before ++ after) fivey_start fivey_end
          ∨ (departure < d < return_ ∧ fivey_start ≤ d ≤ fivey_end))
  ∧ (∀ d, d ∈ Policy.count_absences_ukvi [(Some departure, Some return_)]
                fivey_start fivey_end
          ↔ departure < d < return_ ∧ fivey_start ≤ d ≤ fivey_end)
  ∧ (return_ ≤ departure + 1 →
     Policy.count_absences_ukvi [(Some departure, Some return_)] fivey_start fivey_end = ∅
     ∧ Policy.count_absences_ukvi
         (before ++ (Some departure, Some return_) :: after) fivey_start fivey_end
       = Policy.count_absences_ukvi (before ++ after) fivey_start fivey_end).
Proof.
  intros Hord.
  assert (Hone : ∀ d, covered_whole_day [(Some departure, Some return_)]
                        fivey_start fivey_end d
                      ↔ departure < d < return_ ∧ fivey_start ≤ d ≤ fivey_end).
  { intros d. unfold covered_whole_day. split.
    - intros (o & b & Hin & H1 & H2). apply list_elem_of_singleton in Hin.
      simplify_eq. lia.
    - intros [H1 H2]. exists departure, return_.
      rewrite list_elem_of_singleton. split; [done|lia]. }
  assert (Hmid : ∀ d, covered_whole_day
                        (before ++ (Some departure, Some return_) :: after)
                        fivey_start fivey_end d
                      ↔ covered_whole_day (before ++ after) fivey_start fivey_end d
                        ∨ covered_whole_day [(Some departure, Some return_)]
                            fivey_start fivey_end d).
  { intros d. unfold covered_whole_day. split.
    - intros (o & b & Hin & H1 & H2).
      apply elem_of_app in Hin as [Hin|Hin]; [left; exists o, b; set_solver|].
      apply elem_of_cons in Hin as [Hin|Hin]; [right|left]; exists o, b; set_solver.
    - intros [(o & b & Hin & H1 & H2)|(o & b & Hin & H1 & H2)]; exists o, b;
        (split; [|done]); set_solver. }
  split; [|split].
  - intros d. by rewrite !elem_of_count_absences_ukvi, Hmid, Hone.
  - intros d. by rewrite elem_of_count_absences_ukvi, Hone.
  - intros Hadj. split; apply set_eq; intros d.
    + rewrite elem_of_count_absences_ukvi, Hone. set_solver by lia.
    + rewrite !elem_of_count_absences_ukvi, Hmid, Hone. split; [|auto].
      intros [?|?]; [done|lia].
Qed.

Lemma C4_ukvi_strictly_between_witness :
  mk_date 2020 3 1 ≤ mk_date 2020 3 10
  ∧ ∀ d, d ∈ Policy.count_absences_ukvi
               [(Some (mk_date 2020 3 1), Some (mk_date 2020 3 10))]
               (mk_date 2020 1 1) (mk_date 2025 1 1)
         ↔ mk_date 2020 3 1 < d < mk_date 2020 3 10
           ∧ mk_date 2020 1 1 ≤ d ≤ mk_date 2025 1 1.
Proof.
  assert (H : mk_date 2020 3 1 ≤ mk_date 2020 3 10) by (vm_compute; discriminate).
  split; [exact H|].
  exact (proj1 (proj2 (C4_ukvi_strictly_between [] [] (mk_date 2020 3 1)
                         (mk_date 2020 3 10) (mk_date 2020 1 1) (mk_date 2025 1 1) H))).
Defined.

(** C5 (no double counting).  For every trip list, [total_absent_days] is
    the number of days in the union of the trips' clipped absence spans, and
    the UKVI set is the union of the clipped whole-day spans: a day that
    several trips cover is one day.  Inclusive trips 1 to 10 March and 5 to
    15 March 2020 give 15. *)
Theorem C5_union_cardinality (trips : list trip) (start end_ : date) (cap : Z) :
  (∃ r, App.compute_absence trips start end_ cap = Some r
        ∧ App.total_absent_days r
          = Z.of_nat (size (⋃ (clipped_span_inclusive start end_ <$> trips))))
  ∧ Policy.count_absences_ukvi trips start end_
    = ⋃ (clipped_span_whole_day start end_ <$> trips)
  ∧ App.total_absent_days
      <$> App.compute_absence
            [(Some (mk_date 2020 3 1), Some (mk_date 2020 3 10));
             (Some (mk_date 2020 3 5), Some (mk_date 2020 3 15))]
            (mk_date 2020 1 1) (mk_date 2025 1 1) 180
    = Some 15.
Proof.
  split; [|split].
  - destruct (compute_absence_spec trips start end_ cap)
      as (m & ws & we & fixed & _ & _ & _ & Hc).
    eexists. split; [exact Hc|]. simpl. f_equal.
    rewrite app_absent_days_union.
    apply size_set_map_inj, to_day_serial_inj.
  - apply count_absences_ukvi_union.
  - vm_compute. reflexivity.
Qed.




(** C6 (strict breach).  [compute_absence] reports a breach if and only if
    the rolling maximum is greater than the cap, each fixed block of either
    program is marked BREACH if and only if its count of absent days, which
    is the number of absent days from its first to its last day, is greater
    than the cap, and the rolling status of the UKVI program is BREACH if and
    only if the maximum is greater than the cap; so a count equal to the cap
    is no breach. *)
Theorem C6_breach_is_strict (trips : list trip) (absent_set : gset Z)
    (start end_ : date) (cap : Z) :
  (∃ r, App.compute_absence trips start end_ cap = Some r
        ∧ (App.breach r = true ↔ cap < App.max_in_any_window r)
        ∧ (App.max_in_any_window r = cap → App.breach r = false)
        ∧ ∀ b, b ∈ App.fixed_blocks r →
            (App.Status b = "BREACH"%string ↔ cap < App.Absent_days b)
            ∧ (App.Absent_days b = cap → App.Status b = "OK"%string)
            ∧ App.Absent_days b
              = Z.of_nat (size (filter
                  (λ n, App.Start b ≤ App.from_day_serial n ≤ App.End_ b)
                  (App.absent_days trips start end_))))
  ∧ (∃ rows, Policy.build_fixed_blocks absent_set start end_ cap = Some rows
        ∧ ∀ b, b ∈ rows →
            (Policy.Status b = "BREACH"%string ↔ cap < Policy.Whole_days_absent b)
            ∧ (Policy.Whole_days_absent b = cap → Policy.Status b = "OK"%string)
            ∧ Policy.Whole_days_absent b
              = count_in absent_set (Policy.Start b) (Policy.End_ b))
  ∧ (∀ max_count, Policy.rolling_status max_count cap = "BREACH"%string
                  ↔ cap < max_count).
Proof.
  split; [|split].
  - destruct (compute_absence_spec trips start end_ cap)
      as (m & ws & we & fixed & _ & _ & Hrows & Hc).
    eexists. split; [exact Hc|]. simpl.
    split; [apply Z.ltb_lt|]. split; [intros ->; apply Z.ltb_irrefl|].
    intros b Hb. apply list_elem_of_lookup in Hb as [k Hk].
    destruct (Hrows k b Hk) as (_ & _ & _ & Hcount & Hstatus).
    rewrite Hstatus. split; [|split].
    + destruct (Z.ltb_spec cap (App.Absent_days b)); split; (done || lia).
    + intros ->. by rewrite Z.ltb_irrefl.
    + rewrite Hcount, block_days_filter. f_equal. symmetry.
      apply size_filter_elements. apply merge_sort_Permutation.
  - destruct (build_fixed_blocks_spec absent_set start end_ cap)
      as (rows & Hb & _ & Hrows).
    exists rows. split; [done|].
    intros b Hin. apply list_elem_of_lookup in Hin as [k Hk].
    destruct (Hrows k b Hk) as (_ & _ & _ & Hcount & Hstatus).
    rewrite Hstatus. split; [|split].
    + destruct (Z.ltb_spec cap (Policy.Whole_days_absent b)); split; (done || lia).
    + intros ->. by rewrite Z.ltb_irrefl.
    + by rewrite Hcount, block_count_count_in.
  - intros max_count. unfold Policy.rolling_status.
    destruct (Z.leb_spec max_count cap); split; (done || lia).
Qed.

(** C7 (incomplete trips).  A trip whose departure or return is missing is
    passed over wherever it stands in the list: [normalise_trip] turns it
    into no trip, both programs compute what they compute without it, and
    [compute_absence] returns a result (nothing is raised). *)
Theorem C7_incomplete_trip_skipped (before after : list trip)
    (out back : option date) (start end_ : date) (cap : Z) :
  out = None ∨ back = None →
  Policy.normalise_trip out back = (None, None)
  ∧ App.absent_days (before ++ (out, back) :: after) start end_
    = App.absent_days (before ++ after) start end_
  ∧ App.compute_absence (before ++ (out, back) :: after) start end_ cap
    = App.compute_absence (before ++ after) start end_ cap
  ∧ is_Some (App.compute_absence (before ++ (out, back) :: after) start end_ cap)
  ∧ Policy.count_absences_ukvi (before ++ (out, back) :: after) start end_
    = Policy.count_absences_ukvi (before ++ after) start end_.
Proof.
  intros Hmiss.
  assert (Hnorm : Policy.normalise_trip out back = (None, None)).
  { destruct Hmiss as [-> | ->]; [done|by destruct out]. }
  assert (Happ : ∀ absent, App.absent_add_trip start end_ absent (out, back) = absent).
  { intros absent. destruct Hmiss as [-> | ->]; [done|by destruct out]. }
  assert (Hpol : ∀ absent, Policy.absent_add_trip start end_ absent (out, back) = absent).
  { intros absent. unfold Policy.absent_add_trip. simpl. by rewrite Hnorm. }
  assert (Habs : App.absent_days (before ++ (out, back) :: after) start end_
                 = App.absent_days (before ++ after) start end_).
  { unfold App.absent_days. rewrite !foldl_app. cbn [foldl]. by rewrite Happ. }
  split; [done|]. split; [done|]. split; [|split].
  - unfold App.compute_absence. by rewrite Habs.
  - destruct (compute_absence_spec (before ++ (out, back) :: after) start end_ cap)
      as (m & ws & we & fixed & _ & _ & _ & ->). eauto.
  - unfold Policy.count_absences_ukvi. rewrite !foldl_app. cbn [foldl]. by rewrite Hpol.
Qed.

Lemma C7_incomplete_trip_skipped_witness :
  App.total_absent_days
    <$> App.compute_absence
          [(Some (mk_date 2020 3 1), Some (mk_date 2020 3 10));
           (None, Some (mk_date 2020 4 1));
           (Some (mk_date 2020 3 5), Some (mk_date 2020 3 15))]
          (mk_date 2020 1 1) (mk_date 2025 1 1) 180
  = App.total_absent_days
    <$> App.compute_absence
          [(Some (mk_date 2020 3 1), Some (mk_date 2020 3 10));
           (Some (mk_date 2020 3 5), Some (mk_date 2020 3 15))]
          (mk_date 2020 1 1) (mk_date 2025 1 1) 180.
Proof.
  exact (f_equal (fmap App.total_absent_days)
           (proj1 (proj2 (proj2
              (C7_incomplete_trip_skipped
                 [(Some (mk_date 2020 3 1), Some (mk_date 2020 3 10))]
                 [(Some (mk_date 2020 3 5), Some (mk_date 2020 3 15))]
                 None (Some (mk_date 2020 4 1))
                 (mk_date 2020 1 1) (mk_date 2025 1 1) 180
                 (or_introl eq_refl)))))).
Defined.

(** C8 (the left pointer stays behind).  In the two-pointer scan of any
    list of days, sorted or not, each round leaves the left pointer at or
    before the right index: after the rounds for the indices 0 to [i] the
    scans of both programs have returned, without a read out of bounds, with
    [j ≤ i].  The reason is that the inner loop, started at or before [i],
    stops at [i] at the latest, where the entry is not before its own window
    start; so [rolling_12m_max] returns on every list. *)
Theorem C8_left_pointer_bounded (days : list date) (i : nat) :
  (i < length days)%nat →
  (∃ j best best_end,
      Policy.window_scan days (take (S i) (Policy.enumerate days)) 0%nat 0 None
        = Some (j, best, best_end)
      ∧ App.window_scan days (seq 0 (S i)) 0%nat 0 = Some (j, best)
      ∧ (j ≤ i)%nat)
  ∧ (∀ j x, (j ≤ i)%nat → days !! i = Some x →
       ∃ j', Policy.advance (length days) days (sub_days x 364) j = Some j'
             ∧ App.advance (length days) days (x - 364) j = Some j'
             ∧ (j ≤ j' ≤ i)%nat)
  ∧ is_Some (Policy.rolling_12m_max days).
Proof.
  intros Hi. split; [|split].
  - rewrite enumerate_enum_from, take_enum_from.
    destruct (window_scan_segment [] (take (S i) days) (drop (S i) days) 0%nat 0 None)
      as (j & best & best_end & Hscan & _ & Hj); [simpl; lia|].
    simpl "++" in Hscan. rewrite take_drop in Hscan. simpl length in Hscan.
    exists j, best, best_end. split; [done|]. split.
    + rewrite (app_window_scan_eq days (S i) 0 0%nat 0 None) by lia.
      rewrite drop_0, Hscan. done.
    + destruct Hj as [[Hnil _]|[_ Hj]].
      * destruct days; [simpl in Hi; lia|done].
      * rewrite length_take in Hj. cbn [length] in Hj. lia.
  - intros j x Hj Hx.
    destruct (advance_spec (length days) days (sub_days x 364) j i x)
      as (j' & Hadv & Hb & _); [done|done|unfold sub_days; lia|lia|].
    exists j'. split; [done|]. split; [|done].
    by rewrite app_advance_eq.
  - destruct (decide (days = [])) as [->|Hne]; [by eexists|].
    rewrite (rolling_12m_max_nonempty _ Hne).
    destruct (window_scan_segment [] (merge_sort Z.le days) [] 0%nat 0 None)
      as (j & best & best_end & Hscan & _); [simpl; lia|].
    simpl in Hscan. rewrite app_nil_r in Hscan.
    change (enum_from 0 (merge_sort Z.le days))
      with (Policy.enumerate (merge_sort Z.le days)) in Hscan.
    rewrite Hscan. by eexists.
Qed.

Lemma C8_left_pointer_bounded_witness :
  (2 < length [10; 20; 500])%nat
  ∧ ∃ j best best_end,
      Policy.window_scan [10; 20; 500] (take 3 (Policy.enumerate [10; 20; 500]))
        0%nat 0 None = Some (j, best, best_end)
      ∧ App.window_scan [10; 20; 500] (seq 0 3) 0%nat 0 = Some (j, best)
      ∧ (j ≤ 2)%nat.
Proof.
  assert (H : (2 < length [10; 20; 500])%nat) by (simpl; lia).
  split; [exact H|].
  exact (proj1 (C8_left_pointer_bounded [10; 20; 500] 2%nat H)).
Defined.

(** Six blocks over five years, with dates over all of [Z]: the block
    sequence over the window from the start to the qualifying date
    [compute_dates] gives has six blocks in both programs, and the sixth
    starts and ends on the qualifying date. *)
Lemma six_blocks_any_start (absent_set : gset Z) (trips : list trip)
    (res_start : date) (cap : Z) :
  (∃ rows sixth,
      Policy.build_fixed_blocks absent_set res_start
        (Policy.compute_dates res_start).1 cap = Some rows
      ∧ length rows = 6%nat ∧ rows !! 5%nat = Some sixth
      ∧ Policy.Year sixth = 6
      ∧ Policy.Start sixth = (Policy.compute_dates res_start).1
      ∧ Policy.End_ sixth = (Policy.compute_dates res_start).1)
  ∧ (∃ r sixth,
      App.compute_absence trips res_start (App.compute_dates res_start).1 cap
        = Some r
      ∧ length (App.fixed_blocks r) = 6%nat
      ∧ App.fixed_blocks r !! 5%nat = Some sixth
      ∧ App.Year sixth = 6
      ∧ App.Start sixth = (App.compute_dates res_start).1
      ∧ App.End_ sixth = (App.compute_dates res_start).1).
Proof.
  change (Policy.compute_dates res_start).1 with (add_years 5 res_start).
  change (App.compute_dates res_start).1 with (add_years 5 res_start).
  rewrite <- anniversary_5.
  pose proof (anniversary_step 5 res_start) as Hstep.
  split.
  - destruct (build_fixed_blocks_spec absent_set res_start (anniversary 5 res_start) cap)
      as (rows & Hb & Hlen & Hrows).
    assert (H5 : (5 < length rows)%nat) by (apply Hlen; lia).
    assert (H6 : ¬ (6 < length rows)%nat) by (rewrite Hlen; lia).
    destruct (lookup_lt_is_Some_2 rows 5 H5) as [sixth Hsixth].
    exists rows, sixth. split; [done|]. split; [lia|]. split; [done|].
    destruct (Hrows 5%nat sixth Hsixth) as (Hy & Hs & He & _).
    split; [done|]. split; [done|]. lia.
  - destruct (compute_absence_spec trips res_start (anniversary 5 res_start) cap)
      as (m & ws & we & fixed & _ & Hlen & Hrows & Hc).
    assert (H5 : (5 < length fixed)%nat) by (apply Hlen; lia).
    assert (H6 : ¬ (6 < length fixed)%nat) by (rewrite Hlen; lia).
    destruct (lookup_lt_is_Some_2 fixed 5 H5) as [sixth Hsixth].
    eexists _, sixth. split; [exact Hc|]. cbn [App.fixed_blocks].
    split; [lia|]. split; [done|].
    destruct (Hrows 5%nat sixth Hsixth) as (Hy & Hs & He & _).
    split; [done|]. split; [done|]. lia.
Qed.

Lemma parse_trips_ordered (trips_list : list trip) :
  Forall (λ t, t.1 ≤ t.2) (Policy.parse_trips trips_list).
Proof.
  unfold Policy.parse_trips.
  assert (Hgen : ∀ acc : list (Z * Z), Forall (λ t, t.1 ≤ t.2) acc →
    Forall (λ t, t.1 ≤ t.2)
      (foldl (λ parsed_trips r,
                match Policy.normalise_trip r.1 r.2 with
                | (Some out, Some inn) => parsed_trips ++ [(out, inn)]
                | _ => parsed_trips
                end) acc trips_list)).
  { induction trips_list as [|[[o|] [b|]] l IH]; intros acc Hacc; simpl; auto.
    apply IH. destruct (Z.ltb_spec b o); apply Forall_app; split; auto;
      apply Forall_singleton; simpl; lia. }
  by apply Hgen.
Qed.

Lemma covered_whole_day_as_trips (parsed_trips : list (date * date)) start end_ d :
  covered_whole_day (Policy.as_trips parsed_trips) start end_ d ↔
  ∃ t, t ∈ parsed_trips ∧ Z.min t.1 t.2 < d < Z.max t.1 t.2 ∧ start ≤ d ≤ end_.
Proof.
  unfold covered_whole_day, Policy.as_trips. split.
  - intros (o & b & Hin & H1 & H2).
    apply list_elem_of_fmap in Hin as (t & Heq & Ht). simplify_eq. by exists t.
  - intros (t & Ht & H1 & H2). exists t.1, t.2. split; [|done].
    apply list_elem_of_fmap. by exists t.
Qed.

(** C10 (the pre-filter changes nothing).  For every list of rows and every
    window that starts at the residence start, [count_absences_ukvi] returns
    the same set on the parsed trips with those that end before the residence
    start removed as on all the parsed trips. *)
Theorem C10_prefilter_is_noop (trips_list : list trip) (res_start fivey_end : date) :
  Policy.count_absences_ukvi
    (Policy.as_trips (Policy.drop_before_entry res_start (Policy.parse_trips trips_list)))
    res_start fivey_end
  = Policy.count_absences_ukvi
      (Policy.as_trips (Policy.parse_trips trips_list)) res_start fivey_end.
Proof.
  apply set_eq. intros d.
  rewrite !elem_of_count_absences_ukvi, !covered_whole_day_as_trips.
  unfold Policy.drop_before_entry.
  pose proof (parse_trips_ordered trips_list) as Hord.
  rewrite Forall_forall in Hord.
  split.
  - intros (t & Ht & H1 & H2). apply list_elem_of_filter in Ht as [_ Ht]. by exists t.
  - intros (t & Ht & H1 & H2). exists t. split; [|done].
    apply list_elem_of_filter. split; [|done].
    specialize (Hord t Ht). lia.
Qed.

(** ** The specification's examples *)

(** One inclusive trip from 1 to 10 March 2020 counts 10 days. *)
Example inclusive_single_trip :
  App.total_absent_days
    <$> App.compute_absence [(Some (mk_date 2020 3 1), Some (mk_date 2020 3 10))]
          (mk_date 2020 1 1) (mk_date 2025 1 1) 180
  = Some 10.
Proof. vm_compute. reflexivity. Qed.

(** The same trip under the UKVI policy counts 8 days, 2 to 9 March. *)
Example ukvi_single_trip :
  Policy.count_absences_ukvi [(Some (mk_date 2020 3 1), Some (mk_date 2020 3 10))]
    (mk_date 2020 1 1) (mk_date 2025 1 1)
  = day_span (mk_date 2020 3 2) (mk_date 2020 3 9).
Proof. vm_compute. reflexivity. Qed.

(** A trip of 200 days, ends included, breaches a cap of 180. *)
Example cap_breach :
  (λ r, (App.max_in_any_window r, App.breach r))
    <$> App.compute_absence [(Some (mk_date 2019 6 1), Some (mk_date 2019 12 17))]
          (mk_date 2019 1 1) (mk_date 2024 1 1) 180
  = Some (200, true).
Proof. vm_compute. reflexivity. Qed.

(** A trip returned in the wrong order is put in order. *)
Example swapped_trip :
  Policy.normalise_trip (Some (mk_date 2020 3 10)) (Some (mk_date 2020 3 1))
  = (Some (mk_date 2020 3 1), Some (mk_date 2020 3 10)).
Proof. vm_compute. reflexivity. Qed.

(** ** Further properties of the two programs *)

(** X1.  [daterange_inclusive a b], in both programs, lists the days from
    [a] to [b] in order, each once: entry [i] is [a] plus [i] days, there are
    [b - a + 1] entries when [a ≤ b] and none when [b < a]. *)
Theorem X1_daterange_inclusive (a b : date) :
  App.daterange_inclusive a b = Policy.daterange_inclusive a b
  ∧ (∀ d, d ∈ App.daterange_inclusive a b ↔ a ≤ d ≤ b)
  ∧ (∀ (i : nat) d, App.daterange_inclusive a b !! i = Some d
       ↔ d = a + Z.of_nat i ∧ a + Z.of_nat i ≤ b)
  ∧ NoDup (App.daterange_inclusive a b)
  ∧ length (App.daterange_inclusive a b) = Z.to_nat (b - a + 1)
  ∧ (b < a ↔ App.daterange_inclusive a b = []).
Proof.
  split; [reflexivity|]. split; [apply elem_of_app_daterange|].
  unfold App.daterange_inclusive, add_days, days_between.
  split; [|split; [|split]].
  - intros i d. rewrite list_lookup_fmap. split.
    + intros H. destruct (seqZ 0 (b - a + 1) !! i) as [k|] eqn:E; [|done].
      apply lookup_seqZ in E. simpl in H. simplify_eq. lia.
    + intros [-> H]. rewrite (proj2 (lookup_seqZ 0 (b - a + 1) i (Z.of_nat i))); [|lia].
      simpl. f_equal.
  - apply NoDup_fmap_2; [intros x y; lia|]. apply NoDup_seqZ.
  - by rewrite length_fmap, length_seqZ.
  - split.
    + intros H. rewrite seqZ_nil by lia. done.
    + intros H. apply (f_equal length) in H.
      rewrite length_fmap, length_seqZ in H. simpl in H. lia.
Qed.

(** X2.  [to_day_serial] and [from_day_serial] undo each other, the serial
    of 1970-01-01 is 0, the serial of the next day is one more, and serials
    are ordered as their dates are. *)
Theorem X2_day_serial_round_trip (d d' : date) (n : Z) :
  App.from_day_serial (App.to_day_serial d) = d
  ∧ App.to_day_serial (App.from_day_serial n) = n
  ∧ App.to_day_serial (mk_date 1970 1 1) = 0
  ∧ App.to_day_serial (add_days d 1) = App.to_day_serial d + 1
  ∧ (App.to_day_serial d ≤ App.to_day_serial d' ↔ d ≤ d')
  ∧ (App.to_day_serial d = App.to_day_serial d' ↔ d = d').
Proof.
  split; [apply from_to_day_serial|]. split; [apply to_from_day_serial|].
  unfold App.to_day_serial, days_between, add_days.
  repeat split; lia.
Qed.

(** X3.  [compute_dates], the same in both programs, returns as qualifying
    date the day and month of the start five years on, with 28 February for
    a start on 29 February, and as earliest date the day 28 days before it;
    the earliest date lies after the start and the qualifying date is 1825 to
    1827 days after the start. *)
Theorem X3_compute_dates (start_date : date) :
  let '(qualifying, earliest) := App.compute_dates start_date in
  let '(y, m, d) := ord2ymd start_date in
  Policy.compute_dates start_date = (qualifying, earliest)
  ∧ ord2ymd qualifying = (y + 5, m, if (m =? 2) && (d =? 29) then 28 else d)
  ∧ earliest = qualifying - 28
  ∧ start_date < earliest < qualifying
  ∧ start_date + 1825 ≤ qualifying ≤ start_date + 1827.
Proof.
  unfold App.compute_dates, Policy.compute_dates, sub_days.
  destruct (ord2ymd start_date) as [[y m] d] eqn:E.
  pose proof (ord2ymd_valid _ _ _ _ E) as [Hm Hd].
  assert (Hciv : ord2ymd (add_years 5 start_date)
                 = (y + 5, m, if (m =? 2) && (d =? 29) then 28 else d)).
  { rewrite (add_years_ymd 5 _ _ _ _ E). f_equal. unfold clip_day.
    pose proof (days_in_month_ge (y + 5) m Hm) as Hge.
    destruct (Z.eqb_spec m 2) as [->|Hne]; simpl.
    - destruct (Z.eqb_spec d 29) as [->|Hd29].
      + assert (Hl : is_leap y = true).
        { unfold days_in_month in Hd. simpl in Hd.
          destruct (is_leap y); [done|simpl in Hd; lia]. }
        unfold days_in_month. rewrite (is_leap_plus_5 y Hl). reflexivity.
      + unfold days_in_month in Hd. simpl in Hd.
        destruct (is_leap y); simpl in Hd; lia.
    - unfold days_in_month in *. destruct (Z.eqb_spec m 2); [done|].
      simpl in *. lia. }
  split; [done|]. split; [done|]. split; [done|].
  assert (Hb : start_date + 1825 ≤ add_years 5 start_date ≤ start_date + 1827).
  { rewrite <- (ymd2ord_ord2ymd _ _ _ _ Hciv).
    rewrite <- (ymd2ord_ord2ymd _ _ _ _ E).
    unfold ymd2ord, days_before_month.
    replace (y + 5) with (y + 1 + 1 + 1 + 1 + 1) by lia.
    rewrite !days_before_year_succ.
    replace (y + 1 + 1 + 1 + 1 + 1) with (y + 5) by lia.
    replace (y + 1 + 1 + 1 + 1) with (y + 4) by lia.
    replace (y + 1 + 1 + 1) with (y + 3) by lia.
    replace (y + 1 + 1) with (y + 2) by lia.
    assert (Hleaps : ∀ k, is_leap (y + k) = true → (y + k) mod 4 = 0).
    { intros k. unfold is_leap. rewrite andb_true_iff, Z.eqb_eq. tauto. }
    pose proof (Hleaps 0) as H0. rewrite Z.add_0_r in H0.
    pose proof (Hleaps 1) as H1. pose proof (Hleaps 2) as H2.
    pose proof (Hleaps 3) as H3. pose proof (Hleaps 4) as H4.
    pose proof (Hleaps 5) as H5.
    assert (Hc : m = 1 \/ m = 2 \/ m = 3 \/ m = 4 \/ m = 5 \/ m = 6 \/ m = 7 \/
                 m = 8 \/ m = 9 \/ m = 10 \/ m = 11 \/ m = 12) by lia.
    unfold days_in_month in Hd.
    destruct (is_leap y) eqn:L0, (is_leap (y + 1)) eqn:L1, (is_leap (y + 2)) eqn:L2,
      (is_leap (y + 3)) eqn:L3, (is_leap (y + 4)) eqn:L4, (is_leap (y + 5)) eqn:L5;
      try (exfalso; repeat match goal with
                           | H : true = true → _ |- _ => specialize (H eq_refl)
                           end; clear -H0 H1 H2 H3 H4 H5;
           Z.div_mod_to_equations; lia);
      repeat (destruct Hc as [Hc | Hc]); subst m; simpl in *;
      repeat match goal with
             | |- context [?x =? 29] => destruct (Z.eqb_spec x 29)
             end; lia. }
  lia.
Qed.

(** X4.  [normalise_trip] gives no trip when a date is missing and
    otherwise the two dates with the earlier first; it keeps the two dates,
    does not depend on the order they come in, and changes nothing when
    applied again. *)
Theorem X4_normalise_trip (out back : option date) :
  (Policy.normalise_trip out back = (None, None) ↔ out = None ∨ back = None)
  ∧ (∀ o b, out = Some o → back = Some b →
       Policy.normalise_trip out back = (Some (Z.min o b), Some (Z.max o b)))
  ∧ Policy.normalise_trip back out = Policy.normalise_trip out back
  ∧ Policy.normalise_trip (Policy.normalise_trip out back).1
                          (Policy.normalise_trip out back).2
    = Policy.normalise_trip out back.
Proof.
  unfold Policy.normalise_trip.
  destruct out as [o|], back as [b|]; simpl.
  - split; [|split; [|split]].
    + destruct (Z.ltb_spec b o); split; (done || intros [?|?]; done).
    + intros o' b' ? ?. simplify_eq.
      destruct (Z.ltb_spec b' o'); f_equal; f_equal; lia.
    + destruct (Z.ltb_spec b o), (Z.ltb_spec o b); try done; try lia.
      assert (o = b) as -> by lia. done.
    + destruct (Z.ltb_spec b o); simpl.
      * destruct (Z.ltb_spec o b); [lia|done].
      * destruct (Z.ltb_spec b o); [lia|done].
  - split; [split; auto|]. split; [intros; simplify_eq|]. done.
  - split; [split; auto|]. split; [intros; simplify_eq|]. done.
  - split; [split; auto|]. split; [intros; simplify_eq|]. done.
Qed.

Lemma X4_normalise_trip_witness :
  Policy.normalise_trip (Some 20) (Some 10) = (Some (Z.min 20 10), Some (Z.max 20 10)).
Proof.
  exact (proj1 (proj2 (X4_normalise_trip (Some 20) (Some 10))) 20 10 eq_refl eq_refl).
Defined.

Lemma size_day_span lo hi : size (day_span lo hi) = Z.to_nat (hi - lo + 1).
Proof.
  unfold day_span. rewrite size_list_to_set by apply NoDup_seqZ.
  apply length_seqZ.
Qed.

Lemma count_in_mono (A B : gset Z) lo hi lo' hi' :
  A ⊆ B → lo' ≤ lo → hi ≤ hi' → count_in A lo hi ≤ count_in B lo' hi'.
Proof.
  intros HAB Hlo Hhi. unfold count_in. apply inj_le, subseteq_size.
  intros x. rewrite !elem_of_filter. intros [Hx HA]. split; [lia|by apply HAB].
Qed.

Lemma count_in_le_size (A : gset Z) lo hi : count_in A lo hi ≤ Z.of_nat (size A).
Proof.
  unfold count_in. apply inj_le, subseteq_size.
  intros x. rewrite elem_of_filter. tauto.
Qed.

Lemma count_in_le_length (A : gset Z) lo hi : count_in A lo hi ≤ Z.max 0 (hi - lo + 1).
Proof.
  unfold count_in.
  assert (H : filter (λ d, lo ≤ d ≤ hi) A ⊆ day_span lo hi).
  { intros x. rewrite elem_of_filter, elem_of_day_span. tauto. }
  apply subseteq_size in H. rewrite size_day_span in H. lia.
Qed.

Lemma count_in_all (A : gset Z) lo hi :
  (∀ d, d ∈ A → lo ≤ d ≤ hi) → count_in A lo hi = Z.of_nat (size A).
Proof.
  intros H. unfold count_in. f_equal. f_equal. apply set_eq. intros x.
  rewrite elem_of_filter. split; [tauto|]. intros Hx. split; [by apply H|done].
Qed.

Lemma count_in_split (A : gset Z) lo mid hi :
  lo - 1 ≤ mid ≤ hi →
  count_in A lo hi = count_in A lo mid + count_in A (mid + 1) hi.
Proof.
  intros Hmid. unfold count_in. rewrite <- Nat2Z.inj_add, <- size_union.
  - f_equal. f_equal. apply set_eq. intros x.
    rewrite elem_of_union, !elem_of_filter. split.
    + intros [Hx HA]. destruct (Z.le_gt_cases x mid); [left|right]; split; (done || lia).
    + intros [[Hx HA]|[Hx HA]]; split; (done || lia).
  - intros x. rewrite !elem_of_filter. lia.
Qed.

Lemma app_absent_days_in_window trips start end_ x :
  x ∈ App.absent_days trips start end_ → start ≤ App.from_day_serial x ≤ end_.
Proof.
  rewrite elem_of_app_absent_days. by intros (o & b & _ & _ & H).
Qed.

Lemma ukvi_in_window trips start end_ d :
  d ∈ Policy.count_absences_ukvi trips start end_ → start ≤ d ≤ end_.
Proof.
  rewrite elem_of_count_absences_ukvi. by intros (o & b & _ & _ & H).
Qed.

(** X5.  Every day either program counts as absent lies in the window, so
    neither counts more days than the window has, and an empty window
    ([end_ < start]) gives no absent days. *)
Theorem X5_absences_within_window (trips : list trip) (start end_ : date) (cap : Z) :
  (∀ x, x ∈ App.absent_days trips start end_ →
        start ≤ App.from_day_serial x ≤ end_)
  ∧ (∀ d, d ∈ Policy.count_absences_ukvi trips start end_ → start ≤ d ≤ end_)
  ∧ (∃ r, App.compute_absence trips start end_ cap = Some r
          ∧ 0 ≤ App.total_absent_days r ≤ Z.max 0 (end_ - start + 1))
  ∧ Z.of_nat (size (Policy.count_absences_ukvi trips start end_))
    ≤ Z.max 0 (end_ - start + 1).
Proof.
  split; [apply app_absent_days_in_window|]. split; [apply ukvi_in_window|].
  split.
  - destruct (compute_absence_spec trips start end_ cap)
      as (m & ws & we & fixed & _ & _ & _ & Hc).
    eexists. split; [exact Hc|]. cbn [App.total_absent_days]. split; [lia|].
    rewrite <- (count_in_all _ (App.to_day_serial start) (App.to_day_serial end_)).
    + etrans; [apply count_in_le_length|].
      unfold App.to_day_serial, days_between. lia.
    + intros x Hx. apply app_absent_days_in_window in Hx.
      unfold App.from_day_serial, App.to_day_serial, add_days, days_between in *. lia.
  - rewrite <- (count_in_all _ start end_) by apply ukvi_in_window.
    apply count_in_le_length.
Qed.

Lemma covered_inclusive_perm trips trips' start end_ d :
  trips ≡ₚ trips' →
  covered_inclusive trips start end_ d ↔ covered_inclusive trips' start end_ d.
Proof. intros H. unfold covered_inclusive. by setoid_rewrite H. Qed.

Lemma covered_whole_day_perm trips trips' start end_ d :
  trips ≡ₚ trips' →
  covered_whole_day trips start end_ d ↔ covered_whole_day trips' start end_ d.
Proof. intros H. unfold covered_whole_day. by setoid_rewrite H. Qed.

Lemma compute_absence_ext trips trips' start end_ cap :
  App.absent_days trips start end_ = App.absent_days trips' start end_ →
  App.compute_absence trips start end_ cap = App.compute_absence trips' start end_ cap.
Proof. intros H. unfold App.compute_absence. by rewrite H. Qed.

(** X6.  The order of the trips does not matter: on a rearranged trip list
    [compute_absence] returns the same result and [count_absences_ukvi] the
    same set. *)
Theorem X6_trip_order_irrelevant (trips trips' : list trip) (start end_ : date)
    (cap : Z) :
  trips ≡ₚ trips' →
  App.compute_absence trips start end_ cap = App.compute_absence trips' start end_ cap
  ∧ Policy.count_absences_ukvi trips start end_
    = Policy.count_absences_ukvi trips' start end_.
Proof.
  intros Hperm. split.
  - apply compute_absence_ext, set_eq. intros x.
    by rewrite !elem_of_app_absent_days, (covered_inclusive_perm _ _ _ _ _ Hperm).
  - apply set_eq. intros d.
    by rewrite !elem_of_count_absences_ukvi, (covered_whole_day_perm _ _ _ _ _ Hperm).
Qed.

Lemma X6_trip_order_irrelevant_witness :
  Policy.count_absences_ukvi
    [(Some (mk_date 2020 3 1), Some (mk_date 2020 3 10));
     (Some (mk_date 2021 5 5), Some (mk_date 2021 5 15))]
    (mk_date 2020 1 1) (mk_date 2025 1 1)
  = Policy.count_absences_ukvi
      [(Some (mk_date 2021 5 5), Some (mk_date 2021 5 15));
       (Some (mk_date 2020 3 1), Some (mk_date 2020 3 10))]
      (mk_date 2020 1 1) (mk_date 2025 1 1).
Proof.
  exact (proj2 (X6_trip_order_irrelevant _ _ (mk_date 2020 1 1) (mk_date 2025 1 1) 180
                  (perm_swap _ _ []))).
Defined.

(** X7.  The direction of a trip does not matter either: with departure and
    return exchanged, a trip adds the same days in both programs, wherever it
    stands in the list. *)
Theorem X7_trip_direction_irrelevant (before after : list trip)
    (out back : option date) (start end_ : date) (cap : Z) :
  App.compute_absence (before ++ (out, back) :: after) start end_ cap
  = App.compute_absence (before ++ (back, out) :: after) start end_ cap
  ∧ Policy.count_absences_ukvi (before ++ (out, back) :: after) start end_
    = Policy.count_absences_ukvi (before ++ (back, out) :: after) start end_.
Proof.
  assert (Hin : ∀ (P : Z → Z → Prop),
    (∀ o b, P o b ↔ P b o) →
    (∃ o b, (Some o, Some b) ∈ before ++ (out, back) :: after ∧ P o b)
    ↔ (∃ o b, (Some o, Some b) ∈ before ++ (back, out) :: after ∧ P o b)).
  { intros P HP.
    split; intros (o & b & Hin & H); rewrite elem_of_app, elem_of_cons in Hin;
      destruct Hin as [Hin|[Hin|Hin]];
      try (exists o, b; rewrite elem_of_app, elem_of_cons; by auto);
      simplify_eq; exists b, o; rewrite elem_of_app, elem_of_cons;
      (split; [by auto|by apply HP]). }
  split.
  - apply compute_absence_ext, set_eq. intros x.
    rewrite !elem_of_app_absent_days. unfold covered_inclusive.
    apply (Hin (λ o b, Z.min o b ≤ App.from_day_serial x ≤ Z.max o b
                       ∧ start ≤ App.from_day_serial x ≤ end_)).
    intros o b. rewrite (Z.min_comm o b), (Z.max_comm o b). done.
  - apply set_eq. intros d.
    rewrite !elem_of_count_absences_ukvi. unfold covered_whole_day.
    apply (Hin (λ o b, Z.min o b < d < Z.max o b ∧ start ≤ d ≤ end_)).
    intros o b. rewrite (Z.min_comm o b), (Z.max_comm o b). done.
Qed.

(** X8.  A trip that lies outside the window adds nothing.  Under inclusive
    counting that is a trip that ends before the window starts or starts
    after it ends; under UKVI counting it is enough that the trip ends on the
    first day of the window or earlier, or starts on its last day or later. *)
Theorem X8_trip_outside_window (before after : list trip) (out back : date)
    (start end_ : date) (cap : Z) :
  (Z.max out back < start ∨ end_ < Z.min out back →
   App.compute_absence (before ++ (Some out, Some back) :: after) start end_ cap
   = App.compute_absence (before ++ after) start end_ cap)
  ∧ (Z.max out back ≤ start ∨ end_ ≤ Z.min out back →
     Policy.count_absences_ukvi (before ++ (Some out, Some back) :: after) start end_
     = Policy.count_absences_ukvi (before ++ after) start end_).
Proof.
  split; intros Hout.
  - apply compute_absence_ext, set_eq. intros x.
    rewrite !elem_of_app_absent_days. unfold covered_inclusive. split.
    + intros (o & b & Hin & H1 & H2).
      rewrite elem_of_app, elem_of_cons in Hin. destruct Hin as [Hin|[Hin|Hin]].
      * exists o, b. rewrite elem_of_app. auto.
      * simplify_eq. lia.
      * exists o, b. rewrite elem_of_app. auto.
    + intros (o & b & Hin & H). exists o, b. split; [|done].
      rewrite elem_of_app in Hin. rewrite elem_of_app, elem_of_cons. tauto.
  - apply set_eq. intros d.
    rewrite !elem_of_count_absences_ukvi. unfold covered_whole_day. split.
    + intros (o & b & Hin & H1 & H2).
      rewrite elem_of_app, elem_of_cons in Hin. destruct Hin as [Hin|[Hin|Hin]].
      * exists o, b. rewrite elem_of_app. auto.
      * simplify_eq. lia.
      * exists o, b. rewrite elem_of_app. auto.
    + intros (o & b & Hin & H). exists o, b. split; [|done].
      rewrite elem_of_app in Hin. rewrite elem_of_app, elem_of_cons. tauto.
Qed.

Lemma X8_trip_outside_window_witness :
  Policy.count_absences_ukvi
    [(Some (mk_date 2019 12 20), Some (mk_date 2020 1 1))]
    (mk_date 2020 1 1) (mk_date 2025 1 1)
  = Policy.count_absences_ukvi [] (mk_date 2020 1 1) (mk_date 2025 1 1).
Proof.
  refine (proj2 (X8_trip_outside_window [] [] (mk_date 2019 12 20) (mk_date 2020 1 1)
                   (mk_date 2020 1 1) (mk_date 2025 1 1) 180) _).
  left. vm_compute. discriminate.
Defined.

Lemma rolling_max_mono (A B : gset Z) m ws we m' ws' we' :
  A ⊆ B →
  Policy.rolling_12m_max (elements A) = Some (m, ws, we) →
  Policy.rolling_12m_max (elements B) = Some (m', ws', we') →
  m ≤ m'.
Proof.
  intros HAB HA HB.
  destruct (rolling_12m_max_spec A (elements A)) as (m1 & ws1 & we1 & Hr & _ & Hwin);
    [done|].
  destruct (rolling_12m_max_spec B (elements B)) as (m2 & ws2 & we2 & Hr' & Hmax & _);
    [done|].
  rewrite HA in Hr. rewrite HB in Hr'. simplify_eq.
  destruct we1 as [e|].
  - destruct Hwin as (_ & _ & <-).
    etrans; [apply (count_in_mono A B _ _ (e - 364) e HAB); lia|].
    replace e with (e - 364 + 364) at 2 by lia. apply Hmax.
  - destruct Hwin as (_ & -> & _). etrans; [|apply (Hmax 0)]. apply count_in_nonneg.
Qed.

(** X9.  More trips never give less: with trips added, the set of absent
    days of either program only grows, and the total, the rolling maximum and
    a reported breach of [compute_absence] stay or grow. *)
Theorem X9_more_trips_never_less (trips more : list trip) (start end_ : date)
    (cap : Z) :
  App.absent_days trips start end_ ⊆ App.absent_days (trips ++ more) start end_
  ∧ Policy.count_absences_ukvi trips start end_
    ⊆ Policy.count_absences_ukvi (trips ++ more) start end_
  ∧ ∃ r r', App.compute_absence trips start end_ cap = Some r
      ∧ App.compute_absence (trips ++ more) start end_ cap = Some r'
      ∧ App.total_absent_days r ≤ App.total_absent_days r'
      ∧ App.max_in_any_window r ≤ App.max_in_any_window r'
      ∧ (App.breach r = true → App.breach r' = true).
Proof.
  assert (HA : App.absent_days trips start end_
               ⊆ App.absent_days (trips ++ more) start end_).
  { intros x. rewrite !elem_of_app_absent_days.
    intros (o & b & Hin & H). exists o, b. rewrite elem_of_app. auto. }
  split; [done|]. split.
  - intros d. rewrite !elem_of_count_absences_ukvi.
    intros (o & b & Hin & H). exists o, b. rewrite elem_of_app. auto.
  - destruct (compute_absence_spec trips start end_ cap)
      as (m & ws & we & fixed & Hr & _ & _ & Hc).
    destruct (compute_absence_spec (trips ++ more) start end_ cap)
      as (m' & ws' & we' & fixed' & Hr' & _ & _ & Hc').
    pose proof (rolling_max_mono _ _ _ _ _ _ _ _ HA Hr Hr') as Hm.
    eexists _, _. split; [exact Hc|]. split; [exact Hc'|].
    cbn [App.total_absent_days App.max_in_any_window App.breach].
    split; [by apply inj_le, subseteq_size|]. split; [done|].
    rewrite !Z.ltb_lt. lia.
Qed.

Lemma rolling_max_bounds (A : gset Z) m ws we :
  Policy.rolling_12m_max (elements A) = Some (m, ws, we) →
  0 ≤ m ≤ 365 ∧ m ≤ Z.of_nat (size A) ∧ (m = 0 ↔ A = ∅).
Proof.
  intros HA.
  destruct (rolling_12m_max_spec A (elements A)) as (m1 & ws1 & we1 & Hr & _ & Hwin);
    [done|].
  rewrite HA in Hr. simplify_eq.
  destruct we1 as [e|].
  - destruct Hwin as (He & _ & <-).
    pose proof (count_in_le_length A (e - 364) e).
    pose proof (count_in_le_size A (e - 364) e).
    assert (1 ≤ count_in A (e - 364) e).
    { unfold count_in.
      assert (Hin : e ∈ filter (λ d, e - 364 ≤ d ≤ e) A).
      { apply elem_of_filter. split; [lia|done]. }
      assert (size (filter (λ d, e - 364 ≤ d ≤ e) A) ≠ 0%nat); [|lia].
      apply size_non_empty_iff. intros Hemp. rewrite Hemp in Hin.
      by apply elem_of_empty in Hin. }
    split; [lia|]. split; [lia|]. split; [lia|]. intros ->.
    by apply elem_of_empty in He.
  - destruct Hwin as (-> & -> & _). rewrite size_empty. done.
Qed.

(** X10.  The rolling maximum is never negative, never more than 365 and
    never more than the number of absent days, and it is 0 exactly when there
    are no absent days; so with a cap of 365 or more no rolling breach is
    reported. *)
Theorem X10_rolling_max_bounds (absent : gset Z) (trips : list trip)
    (start end_ : date) (cap : Z) :
  (∃ max_count window_start window_end,
      Policy.rolling_12m_max (elements absent)
        = Some (max_count, window_start, window_end)
      ∧ 0 ≤ max_count ≤ 365
      ∧ max_count ≤ Z.of_nat (size absent)
      ∧ (max_count = 0 ↔ absent = ∅)
      ∧ (window_end = None ↔ absent = ∅))
  ∧ (∃ r, App.compute_absence trips start end_ cap = Some r
          ∧ 0 ≤ App.max_in_any_window r ≤ 365
          ∧ App.max_in_any_window r ≤ App.total_absent_days r
          ∧ (App.max_in_any_window r = 0 ↔ App.total_absent_days r = 0)
          ∧ (365 ≤ cap → App.breach r = false)).
Proof.
  split.
  - destruct (rolling_12m_max_spec absent (elements absent))
      as (m & ws & we & Hr & _ & Hwin); [done|].
    destruct (rolling_max_bounds absent m ws we Hr) as (H1 & H2 & H3).
    exists m, ws, we. split; [done|]. split; [done|]. split; [done|]. split; [done|].
    destruct we as [e|].
    + destruct Hwin as (He & _). split; [done|]. intros ->.
      by apply elem_of_empty in He.
    + destruct Hwin as (-> & _). done.
  - destruct (compute_absence_spec trips start end_ cap)
      as (m & ws & we & fixed & Hr & _ & _ & Hc).
    destruct (rolling_max_bounds _ m ws we Hr) as (H1 & H2 & H3).
    eexists. split; [exact Hc|].
    cbn [App.total_absent_days App.max_in_any_window App.breach].
    split; [done|]. split; [done|]. split.
    + rewrite H3. split.
      * intros ->. by rewrite size_empty.
      * intros H. apply leibniz_equiv, size_empty_iff. lia.
    + intros Hcap. apply Z.ltb_ge. lia.
Qed.

Lemma merge_sort_perm_eq (l l' : list Z) :
  l ≡ₚ l' → merge_sort Z.le l = merge_sort Z.le l'.
Proof.
  intros H. apply (Sorted_unique Z.le).
  - apply Sorted_merge_sort; apply _.
  - apply Sorted_merge_sort; apply _.
  - by rewrite !merge_sort_Permutation.
Qed.

(** X11.  [rolling_12m_max] does not depend on the order in which the days
    are listed. *)
Theorem X11_rolling_order_irrelevant (absent_days absent_days' : list date) :
  absent_days ≡ₚ absent_days' →
  Policy.rolling_12m_max absent_days = Policy.rolling_12m_max absent_days'.
Proof.
  intros H.
  destruct (decide (absent_days = [])) as [->|Hne].
  - apply Permutation_nil in H. by subst.
  - assert (Hne' : absent_days' ≠ []).
    { intros ->. symmetry in H. by apply Permutation_nil in H. }
    by rewrite !rolling_12m_max_nonempty, (merge_sort_perm_eq _ _ H).
Qed.

Lemma X11_rolling_order_irrelevant_witness :
  Policy.rolling_12m_max [30; 10; 20] = Policy.rolling_12m_max [10; 30; 20].
Proof.
  exact (X11_rolling_order_irrelevant [30; 10; 20] [10; 30; 20] (perm_swap 10 30 [20])).
Defined.

Lemma rolling_max_close (A : gset Z) m ws we :
  (∀ d d', d ∈ A → d' ∈ A → d' - d ≤ 364) →
  Policy.rolling_12m_max (elements A) = Some (m, ws, we) →
  m = Z.of_nat (size A).
Proof.
  intros Hclose HA.
  destruct (rolling_max_bounds A m ws we HA) as (H1 & H2 & H3).
  destruct (rolling_12m_max_spec A (elements A)) as (m1 & ws1 & we1 & Hr & Hmax & Hwin);
    [done|].
  rewrite HA in Hr. simplify_eq.
  destruct we1 as [e|].
  - destruct Hwin as (He & _ & Hm).
    apply Z.le_antisymm; [done|].
    destruct (list_max_elem (elements A)) as (x & Hx & Hxmax).
    { intros Hnil. apply elements_empty_inv in Hnil.
      apply leibniz_equiv in Hnil. subst. by apply elem_of_empty in He. }
    apply elem_of_elements in Hx.
    rewrite <- (count_in_all A (x - 364) x).
    + specialize (Hmax (x - 364)). by replace (x - 364 + 364) with x in Hmax by lia.
    + intros d Hd. split.
      * specialize (Hclose d x Hd Hx). lia.
      * apply Hxmax. by apply elem_of_elements.
  - destruct Hwin as (-> & -> & _). by rewrite size_empty.
Qed.

(** X12.  When no two absent days are more than 364 days apart, the rolling
    maximum is the total number of absent days. *)
Theorem X12_short_absence_max_is_total (trips : list trip) (start end_ : date)
    (cap : Z) :
  (∀ x x', x ∈ App.absent_days trips start end_ →
           x' ∈ App.absent_days trips start end_ → x' - x ≤ 364) →
  ∃ r, App.compute_absence trips start end_ cap = Some r
       ∧ App.max_in_any_window r = App.total_absent_days r.
Proof.
  intros Hclose.
  destruct (compute_absence_spec trips start end_ cap)
    as (m & ws & we & fixed & Hr & _ & _ & Hc).
  eexists. split; [exact Hc|]. cbn [App.total_absent_days App.max_in_any_window].
  by apply (rolling_max_close _ m ws we).
Qed.

Lemma X12_short_absence_max_is_total_witness :
  ∃ r, App.compute_absence
         [(Some (mk_date 2019 6 1), Some (mk_date 2019 12 17))]
         (mk_date 2019 1 1) (mk_date 2024 1 1) 180 = Some r
       ∧ App.max_in_any_window r = App.total_absent_days r.
Proof.
  apply X12_short_absence_max_is_total.
  intros x x' Hx Hx'.
  apply app_absent_days_in_window in Hx as Hw.
  apply elem_of_app_absent_days in Hx as (o & b & Hin & H1 & _).
  apply elem_of_app_absent_days in Hx' as (o' & b' & Hin' & H1' & _).
  apply list_elem_of_singleton in Hin, Hin'. simplify_eq.
  unfold App.from_day_serial, add_days in *.
  change (mk_date 2019 6 1) with 737211 in *.
  change (mk_date 2019 12 17) with 737410 in *. lia.
Defined.

Lemma sum_Z_app l1 l2 : sum_Z (l1 ++ l2) = sum_Z l1 + sum_Z l2.
Proof. unfold sum_Z. induction l1 as [|x l1 IH]; simpl; lia. Qed.

Lemma count_in_empty_range (A : gset Z) lo hi : hi < lo → count_in A lo hi = 0.
Proof. intros H. pose proof (count_in_le_length A lo hi). pose proof (count_in_nonneg A lo hi). lia. Qed.

Lemma app_block_days_count_in (absent : gset Z) (absent_sorted : list Z) s e :
  absent_sorted ≡ₚ elements absent →
  App.block_days absent_sorted s e
  = count_in absent (App.to_day_serial s) (App.to_day_serial e).
Proof.
  intros Hperm. rewrite block_days_filter. unfold count_in.
  rewrite (size_filter_elements _ absent absent_sorted Hperm). f_equal. f_equal.
  apply list_filter_iff. intros n.
  unfold App.from_day_serial, App.to_day_serial, add_days, days_between. lia.
Qed.

Lemma policy_block_loop_sum fuel absent_set fivey_end cap rows i cur :
  (cur ≤ fivey_end → (Z.to_nat (fivey_end - cur) < fuel)%nat) →
  ∃ out,
    Policy.block_loop fuel absent_set fivey_end cap rows i cur = Some (rows ++ out)
    ∧ sum_Z (Policy.Whole_days_absent <$> out) = count_in absent_set cur fivey_end.
Proof.
  revert rows i cur. induction fuel as [|fuel IH]; intros rows i cur Hfuel.
  - assert (fivey_end < cur) by lia.
    exists []. simpl. destruct (Z.leb_spec cur fivey_end); [lia|].
    rewrite app_nil_r. split; [done|]. by rewrite count_in_empty_range.
  - simpl. destruct (Z.leb_spec cur fivey_end) as [Hle|Hgt].
    + pose proof (add_years_1_bounds cur) as Hnext.
      match goal with
      | |- context [Policy.block_loop fuel _ _ _ (rows ++ [?r0]) _ _] => set (r := r0)
      end.
      destruct (IH (rows ++ [r]) (i + 1) (add_years 1 cur)) as (out & -> & Hsum); [lia|].
      exists (r :: out). split; [by rewrite <- (assoc_L (++))|].
      rewrite fmap_cons. change (sum_Z (?x :: ?l)) with (x + sum_Z l).
      rewrite Hsum. subst r. cbn [Policy.Whole_days_absent].
      rewrite block_count_count_in. unfold sub_days.
      destruct (Z.le_gt_cases (add_years 1 cur - 1) fivey_end).
      * rewrite Z.min_l by done.
        rewrite (count_in_split absent_set cur (add_years 1 cur - 1) fivey_end) by lia.
        by replace (add_years 1 cur - 1 + 1) with (add_years 1 cur) by lia.
      * rewrite Z.min_r by lia.
        rewrite (count_in_empty_range absent_set (add_years 1 cur)) by lia. lia.
    + exists []. rewrite app_nil_r. split; [done|]. by rewrite count_in_empty_range.
Qed.

Lemma app_fixed_loop_sum fuel (absent : gset Z) absent_sorted end_ cap cur fixed :
  absent_sorted ≡ₚ elements absent →
  (cur ≤ end_ → (Z.to_nat (end_ - cur) < fuel)%nat) →
  ∃ out,
    App.fixed_loop fuel absent_sorted end_ cap cur fixed = Some (fixed ++ out)
    ∧ sum_Z (App.Absent_days <$> out)
      = count_in absent (App.to_day_serial cur) (App.to_day_serial end_).
Proof.
  intros Hperm.
  revert fixed cur. induction fuel as [|fuel IH]; intros fixed cur Hfuel.
  - assert (end_ < cur) by lia.
    exists []. simpl. destruct (Z.leb_spec cur end_); [lia|].
    rewrite app_nil_r. split; [done|]. rewrite count_in_empty_range; [done|].
    unfold App.to_day_serial, days_between. lia.
  - simpl. destruct (Z.leb_spec cur end_) as [Hle|Hgt].
    + pose proof (add_years_1_bounds cur) as Hnext.
      match goal with
      | |- context [App.fixed_loop fuel _ _ _ _ (fixed ++ [?r0])] => set (r := r0)
      end.
      destruct (IH (fixed ++ [r]) (add_years 1 cur)) as (out & -> & Hsum); [lia|].
      exists (r :: out). split; [by rewrite <- (assoc_L (++))|].
      rewrite fmap_cons. change (sum_Z (?x :: ?l)) with (x + sum_Z l).
      rewrite Hsum. subst r. cbn [App.Absent_days].
      rewrite (app_block_days_count_in absent) by done. unfold sub_days.
      destruct (Z.le_gt_cases (add_years 1 cur - 1) end_).
      * rewrite Z.min_l by done.
        rewrite (count_in_split absent (App.to_day_serial cur)
                   (App.to_day_serial (add_years 1 cur - 1)) (App.to_day_serial end_))
          by (unfold App.to_day_serial, days_between; lia).
        f_equal. f_equal. unfold App.to_day_serial, days_between. lia.
      * rewrite Z.min_r by lia.
        rewrite (count_in_empty_range absent (App.to_day_serial (add_years 1 cur)))
          by (unfold App.to_day_serial, days_between; lia). lia.
    + exists []. rewrite app_nil_r. split; [done|]. rewrite count_in_empty_range; [done|].
      unfold App.to_day_serial, days_between. lia.
Qed.

(** X13.  The fixed blocks share out the absent days of the window: in
    [compute_absence] the counts of the blocks add up to
    [total_absent_days], and in [build_fixed_blocks] they add up to the number
    of days of the set that lie in the window, which for the set that
    [count_absences_ukvi] returns for that window is all of them. *)
Theorem X13_block_counts_add_up (absent_set : gset Z) (trips : list trip)
    (start end_ : date) (cap : Z) :
  (∃ r, App.compute_absence trips start end_ cap = Some r
        ∧ sum_Z (App.Absent_days <$> App.fixed_blocks r) = App.total_absent_days r)
  ∧ (∃ rows, Policy.build_fixed_blocks absent_set start end_ cap = Some rows
        ∧ sum_Z (Policy.Whole_days_absent <$> rows) = count_in absent_set start end_)
  ∧ (∃ rows, Policy.build_fixed_blocks
               (Policy.count_absences_ukvi trips start end_) start end_ cap = Some rows
        ∧ sum_Z (Policy.Whole_days_absent <$> rows)
          = Z.of_nat (size (Policy.count_absences_ukvi trips start end_))).
Proof.
  assert (Hpol : ∀ A, ∃ rows, Policy.build_fixed_blocks A start end_ cap = Some rows
        ∧ sum_Z (Policy.Whole_days_absent <$> rows) = count_in A start end_).
  { intros A.
    destruct (policy_block_loop_sum (Policy.block_fuel start end_) A end_ cap [] 0 start)
      as (rows & Hloop & Hsum).
    { unfold Policy.block_fuel, days_between. lia. }
    by exists rows. }
  split; [|split; [apply Hpol|]].
  - destruct (compute_absence_spec trips start end_ cap)
      as (m & ws & we & fixed & _ & _ & _ & Hc).
    destruct (app_fixed_loop_sum (App.block_fuel start end_)
                (App.absent_days trips start end_)
                (merge_sort Z.le (elements (App.absent_days trips start end_)))
                end_ cap start []) as (out & Hloop & Hsum).
    { apply merge_sort_Permutation. }
    { unfold App.block_fuel, days_between. lia. }
    change ([] ++ out) with out in Hloop.
    assert (Hfixed : fixed = out).
    { pose proof Hc as Hc2. unfold App.compute_absence in Hc2. rewrite Hloop in Hc2.
      destruct (App.window_scan _ _ _ _) as [[j b]|]; [|done]. by simplify_eq. }
    subst fixed. eexists. split; [exact Hc|].
    cbn [App.fixed_blocks App.total_absent_days]. rewrite Hsum.
    apply count_in_all. intros x Hx. apply app_absent_days_in_window in Hx.
    unfold App.from_day_serial, App.to_day_serial, add_days, days_between in *. lia.
  - destruct (Hpol (Policy.count_absences_ukvi trips start end_)) as (rows & Hb & Hsum).
    exists rows. split; [done|]. rewrite Hsum.
    apply count_in_all, ukvi_in_window.
Qed.

(** X14.  In both programs every block before the last spans 365 or 366
    days, the last block spans at least one day and at most 366, and no block
    counts fewer than 0 absent days or more than it has days. *)
Theorem X14_block_lengths (absent_set : gset Z) (trips : list trip)
    (start end_ : date) (cap : Z) :
  (∃ rows, Policy.build_fixed_blocks absent_set start end_ cap = Some rows
     ∧ ∀ (k : nat) b, rows !! k = Some b →
         1 ≤ Policy.End_ b - Policy.Start b + 1 ≤ 366
         ∧ ((S k < length rows)%nat → 365 ≤ Policy.End_ b - Policy.Start b + 1)
         ∧ 0 ≤ Policy.Whole_days_absent b ≤ Policy.End_ b - Policy.Start b + 1)
  ∧ (∃ r, App.compute_absence trips start end_ cap = Some r
     ∧ ∀ (k : nat) b, App.fixed_blocks r !! k = Some b →
         1 ≤ App.End_ b - App.Start b + 1 ≤ 366
         ∧ ((S k < length (App.fixed_blocks r))%nat
            → 365 ≤ App.End_ b - App.Start b + 1)
         ∧ 0 ≤ App.Absent_days b ≤ App.End_ b - App.Start b + 1).
Proof.
  split.
  - destruct (build_fixed_blocks_spec absent_set start end_ cap)
      as (rows & Hb & Hlen & Hrows).
    exists rows. split; [done|]. intros k b Hk.
    destruct (Hrows k b Hk) as (_ & Hs & He & Hcount & _).
    pose proof (anniversary_step k start) as Hstep.
    pose proof (proj1 (Hlen k) (lookup_lt_Some _ _ _ Hk)) as Hin.
    rewrite Hcount, block_count_count_in.
    pose proof (count_in_nonneg absent_set (Policy.Start b) (Policy.End_ b)).
    pose proof (count_in_le_length absent_set (Policy.Start b) (Policy.End_ b)).
    split; [lia|]. split; [|lia].
    intros Hnext. apply Hlen in Hnext. lia.
  - destruct (compute_absence_spec trips start end_ cap)
      as (m & ws & we & fixed & _ & Hlen & Hrows & Hc).
    eexists. split; [exact Hc|]. cbn [App.fixed_blocks]. intros k b Hk.
    destruct (Hrows k b Hk) as (_ & Hs & He & Hcount & _).
    pose proof (anniversary_step k start) as Hstep.
    pose proof (proj1 (Hlen k) (lookup_lt_Some _ _ _ Hk)) as Hin.
    rewrite Hcount, (app_block_days_count_in (App.absent_days trips start end_))
      by apply merge_sort_Permutation.
    pose proof (count_in_nonneg (App.absent_days trips start end_)
                  (App.to_day_serial (App.Start b)) (App.to_day_serial (App.End_ b))).
    pose proof (count_in_le_length (App.absent_days trips start end_)
                  (App.to_day_serial (App.Start b)) (App.to_day_serial (App.End_ b))).
    unfold App.to_day_serial, days_between in *.
    split; [lia|]. split; [|lia].
    intros Hnext. apply Hlen in Hnext. lia.
Qed.

Lemma count_in_year_le_max (A : gset Z) m ws we s e :
  Policy.rolling_12m_max (elements A) = Some (m, ws, we) →
  e - s ≤ 365 →
  count_in A s e ≤ m + 1 ∧ (e - s ≤ 364 → count_in A s e ≤ m).
Proof.
  intros HA Hlen.
  destruct (rolling_12m_max_spec A (elements A)) as (m1 & ws1 & we1 & Hr & Hmax & _);
    [done|].
  rewrite HA in Hr. simplify_eq.
  assert (Hshort : e - s ≤ 364 → count_in A s e ≤ m1).
  { intros H. etrans; [|apply (Hmax s)]. apply count_in_mono; [done|lia|lia]. }
  split; [|done].
  destruct (Z.le_gt_cases (e - s) 364); [specialize (Hshort ltac:(done)); lia|].
  rewrite (count_in_split A s (s + 364) e) by lia.
  pose proof (Hmax s). pose proof (count_in_le_length A (s + 364 + 1) e). lia.
Qed.

(** X15.  A fixed block never counts more than one day above the rolling
    maximum, and a block of at most 365 days never counts more than the
    rolling maximum; so when such a block is marked BREACH, the rolling check
    reports a breach too.  A block of 366 days can be marked BREACH without a
    rolling breach: with a cap of 365 and one trip from 2020-01-01 to
    2020-12-31, the first block of the window from 2020-01-01 counts 366 days
    and is marked BREACH, while the rolling maximum is 365 and no breach is
    reported. *)
Theorem X15_block_count_vs_rolling_max (absent_set : gset Z) (trips : list trip)
    (start end_ : date) (cap : Z) :
  (∃ rows max_count window_start window_end,
      Policy.build_fixed_blocks absent_set start end_ cap = Some rows
      ∧ Policy.rolling_12m_max (elements absent_set)
        = Some (max_count, window_start, window_end)
      ∧ ∀ b, b ∈ rows →
          Policy.Whole_days_absent b ≤ max_count + 1
          ∧ (Policy.End_ b - Policy.Start b + 1 ≤ 365 →
             Policy.Whole_days_absent b ≤ max_count
             ∧ (Policy.Status b = "BREACH"%string →
                Policy.rolling_status max_count cap = "BREACH"%string)))
  ∧ (∃ r, App.compute_absence trips start end_ cap = Some r
      ∧ ∀ b, b ∈ App.fixed_blocks r →
          App.Absent_days b ≤ App.max_in_any_window r + 1
          ∧ (App.End_ b - App.Start b + 1 ≤ 365 →
             App.Absent_days b ≤ App.max_in_any_window r
             ∧ (App.Status b = "BREACH"%string → App.breach r = true)))
  ∧ (∃ r b,
      App.compute_absence [(Some (mk_date 2020 1 1), Some (mk_date 2020 12 31))]
        (mk_date 2020 1 1) (mk_date 2025 1 1) 365 = Some r
      ∧ App.fixed_blocks r !! 0%nat = Some b
      ∧ App.End_ b - App.Start b + 1 = 366
      ∧ App.Absent_days b = 366
      ∧ App.Status b = "BREACH"%string
      ∧ App.max_in_any_window r = 365
      ∧ App.breach r = false).
Proof.
  split; [|split].
  - destruct (build_fixed_blocks_spec absent_set start end_ cap)
      as (rows & Hb & Hlen & Hrows).
    destruct (rolling_12m_max_spec absent_set (elements absent_set))
      as (m & ws & we & Hr & _); [done|].
    exists rows, m, ws, we. split; [done|]. split; [done|].
    intros b Hin. apply list_elem_of_lookup in Hin as [k Hk].
    destruct (Hrows k b Hk) as (_ & Hs & He & Hcount & Hstatus).
    pose proof (anniversary_step k start) as Hstep.
    pose proof (proj1 (Hlen k) (lookup_lt_Some _ _ _ Hk)) as Hin.
    destruct (count_in_year_le_max absent_set m ws we (Policy.Start b) (Policy.End_ b) Hr)
      as [H1 H2]; [lia|].
    rewrite Hstatus, Hcount, block_count_count_in.
    split; [done|]. intros Hshort. specialize (H2 ltac:(lia)). split; [done|].
    unfold Policy.rolling_status.
    destruct (Z.ltb_spec cap (count_in absent_set (Policy.Start b) (Policy.End_ b)));
      [|done].
    destruct (Z.leb_spec m cap); [lia|done].
  - destruct (compute_absence_spec trips start end_ cap)
      as (m & ws & we & fixed & Hr & Hlen & Hrows & Hc).
    eexists. split; [exact Hc|]. cbn [App.fixed_blocks App.max_in_any_window App.breach].
    intros b Hin. apply list_elem_of_lookup in Hin as [k Hk].
    destruct (Hrows k b Hk) as (_ & Hs & He & Hcount & Hstatus).
    pose proof (anniversary_step k start) as Hstep.
    pose proof (proj1 (Hlen k) (lookup_lt_Some _ _ _ Hk)) as Hin.
    destruct (count_in_year_le_max _ m ws we (App.to_day_serial (App.Start b))
                (App.to_day_serial (App.End_ b)) Hr) as [H1 H2].
    { unfold App.to_day_serial, days_between. lia. }
    rewrite Hstatus, Hcount, (app_block_days_count_in (App.absent_days trips start end_))
      by apply merge_sort_Permutation.
    split; [done|]. intros Hshort.
    assert (Hle : count_in (App.absent_days trips start end_)
                    (App.to_day_serial (App.Start b)) (App.to_day_serial (App.End_ b))
                  ≤ m).
    { apply H2. unfold App.to_day_serial, days_between. lia. }
    split; [done|].
    destruct (Z.ltb_spec cap (count_in (App.absent_days trips start end_)
                (App.to_day_serial (App.Start b)) (App.to_day_serial (App.End_ b))));
      [|done].
    intros _. apply Z.ltb_lt. lia.
  - eexists _, _. split; [vm_compute; reflexivity|].
    split; [reflexivity|]. repeat split; vm_compute; reflexivity.
Qed.

Lemma length_eq_by_index (n1 n2 : nat) (P : nat → Prop) :
  (∀ k, (k < n1)%nat ↔ P k) → (∀ k, (k < n2)%nat ↔ P k) → n1 = n2.
Proof.
  intros H1 H2.
  destruct (Nat.lt_trichotomy n1 n2) as [Hlt|[->|Hlt]]; [exfalso|done|exfalso].
  - pose proof (proj2 (H1 n1) (proj1 (H2 n1) Hlt)). lia.
  - pose proof (proj2 (H2 n2) (proj1 (H1 n2) Hlt)). lia.
Qed.

(** X16.  For the same trips, window and cap the two programs return the
    same blocks (number, first day, last day), and in each block the UKVI
    count is at most the inclusive count. *)
Theorem X16_programs_agree_on_blocks (trips : list trip) (start end_ : date)
    (cap : Z) :
  ∃ r rows,
    App.compute_absence trips start end_ cap = Some r
    ∧ Policy.build_fixed_blocks (Policy.count_absences_ukvi trips start end_)
        start end_ cap = Some rows
    ∧ Forall2 (λ a p, App.Year a = Policy.Year p
                      ∧ App.Start a = Policy.Start p
                      ∧ App.End_ a = Policy.End_ p
                      ∧ Policy.Whole_days_absent p ≤ App.Absent_days a)
              (App.fixed_blocks r) rows.
Proof.
  destruct (compute_absence_spec trips start end_ cap)
    as (m & ws & we & fixed & _ & Hlen & Hrows & Hc).
  destruct (build_fixed_blocks_spec (Policy.count_absences_ukvi trips start end_)
              start end_ cap) as (rows & Hb & Hlen' & Hrows').
  eexists _, rows. split; [exact Hc|]. split; [done|]. cbn [App.fixed_blocks].
  apply Forall2_same_length_lookup. split.
  - apply (length_eq_by_index _ _ _ Hlen Hlen').
  - intros k a p Ha Hp.
    destruct (Hrows k a Ha) as (Hy & Hs & He & Hcount & _).
    destruct (Hrows' k p Hp) as (Hy' & Hs' & He' & Hcount' & _).
    split; [lia|]. split; [lia|]. split; [lia|].
    rewrite Hcount, Hcount', block_count_count_in,
      (app_block_days_count_in (App.absent_days trips start end_))
      by apply merge_sort_Permutation.
    rewrite Hs, He, Hs', He'. unfold count_in. apply inj_le.
    rewrite <- (size_set_map_inj App.to_day_serial) by apply to_day_serial_inj.
    apply subseteq_size. intros x Hx.
    apply elem_of_map in Hx as (d & -> & Hd).
    apply elem_of_filter in Hd as [Hd Hin].
    apply elem_of_filter. split.
    + unfold App.to_day_serial, days_between. lia.
    + apply elem_of_count_absences_ukvi, covered_whole_day_inclusive in Hin.
      apply elem_of_app_absent_days. by rewrite from_to_day_serial.
Qed.

Lemma elem_of_parse_trips (trips_list : list trip) t :
  t ∈ Policy.parse_trips trips_list ↔
  ∃ o b, (Some o, Some b) ∈ trips_list ∧ t = (Z.min o b, Z.max o b).
Proof.
  unfold Policy.parse_trips.
  assert (Hgen : ∀ acc : list (Z * Z),
    t ∈ foldl (λ parsed_trips r,
                 match Policy.normalise_trip r.1 r.2 with
                 | (Some out, Some inn) => parsed_trips ++ [(out, inn)]
                 | _ => parsed_trips
                 end) acc trips_list
    ↔ t ∈ acc ∨ ∃ o b, (Some o, Some b) ∈ trips_list ∧ t = (Z.min o b, Z.max o b)).
  { induction trips_list as [|r l IH]; intros acc.
    - simpl. split; [auto|]. intros [?|(o & b & Hin & _)]; [done|].
      by apply elem_of_nil in Hin.
    - cbn [foldl]. rewrite IH. clear IH.
      assert (Hr : ∀ acc' : list (Z * Z),
        (t ∈ acc' ↔ t ∈ acc ∨ ∃ o b, r = (Some o, Some b) ∧ t = (Z.min o b, Z.max o b)) →
        (t ∈ acc' ∨ (∃ o b, (Some o, Some b) ∈ l ∧ t = (Z.min o b, Z.max o b))
         ↔ t ∈ acc ∨ ∃ o b, (Some o, Some b) ∈ r :: l ∧ t = (Z.min o b, Z.max o b))).
      { intros acc' ->. setoid_rewrite elem_of_cons. split.
        - intros [[?|(o & b & -> & ->)]|(o & b & Hin & ->)]; [by left|right..];
            exists o, b; auto.
        - intros [?|(o & b & [Heq|Hin] & ->)]; [by left; left| |right; by exists o, b].
          left. right. by exists o, b. }
      apply Hr. destruct r as [[o|] [b|]]; simpl.
      + destruct (Z.ltb_spec b o) as [Hbo|Hbo];
          rewrite elem_of_app, list_elem_of_singleton;
          (split; (intros [?|Ht]; [by left|right])).
        * subst t. exists o, b. split; [done|]. f_equal; lia.
        * destruct Ht as (o' & b' & ? & ->). simplify_eq. f_equal; lia.
        * subst t. exists o, b. split; [done|]. f_equal; lia.
        * destruct Ht as (o' & b' & ? & ->). simplify_eq. f_equal; lia.
      + split; [auto|]. intros [?|(o' & b' & ? & _)]; [done|simplify_eq].
      + split; [auto|]. intros [?|(o' & b' & ? & _)]; [done|simplify_eq].
      + split; [auto|]. intros [?|(o' & b' & ? & _)]; [done|simplify_eq]. }
  rewrite Hgen. split; [|auto]. intros [H|H]; [by apply elem_of_nil in H|done].
Qed.

(** X17.  What the UKVI program does to the rows before counting changes
    nothing: putting each complete row in order, leaving out the incomplete
    ones and then the trips that end before the residence start gives
    [count_absences_ukvi] the same set as the rows as entered; and every trip
    handed on has its earlier date first and ends on or after the residence
    start. *)
Theorem X17_row_preparation_is_noop (trips_list : list trip)
    (res_start fivey_end : date) :
  Policy.count_absences_ukvi
    (Policy.as_trips (Policy.drop_before_entry res_start (Policy.parse_trips trips_list)))
    res_start fivey_end
  = Policy.count_absences_ukvi trips_list res_start fivey_end
  ∧ ∀ t, t ∈ Policy.drop_before_entry res_start (Policy.parse_trips trips_list) →
         t.1 ≤ t.2 ∧ res_start ≤ t.2.
Proof.
  split.
  - apply set_eq. intros d.
    rewrite !elem_of_count_absences_ukvi, covered_whole_day_as_trips.
    unfold Policy.drop_before_entry, covered_whole_day.
    setoid_rewrite list_elem_of_filter. setoid_rewrite elem_of_parse_trips. split.
    + intros (t & (_ & o & b & Hin & ->) & H1 & H2). simpl in H1.
      exists o, b. split; [done|]. lia.
    + intros (o & b & Hin & H1 & H2). exists (Z.min o b, Z.max o b). simpl.
      split; [|lia]. split; [lia|]. by exists o, b.
  - intros t Ht. unfold Policy.drop_before_entry in Ht.
    apply list_elem_of_filter in Ht as [Hge Ht].
    apply elem_of_parse_trips in Ht as (o & b & _ & ->). simpl in *. lia.
Qed.

(** X18.  While no row has both dates, as after adding empty rows, nothing
    is counted: the total and the rolling maximum are 0, every block counts 0
    and, for a cap that is not negative, no breach is reported and every
    block is OK; the UKVI set is empty. *)
Theorem X18_no_complete_trip (trips : list trip) (start end_ : date) (cap : Z) :
  Forall (λ t, t.1 = None ∨ t.2 = None) trips →
  Policy.count_absences_ukvi trips start end_ = ∅
  ∧ ∃ r, App.compute_absence trips start end_ cap = Some r
      ∧ App.total_absent_days r = 0
      ∧ App.max_in_any_window r = 0
      ∧ (∀ b, b ∈ App.fixed_blocks r → App.Absent_days b = 0)
      ∧ (0 ≤ cap → App.breach r = false
                   ∧ ∀ b, b ∈ App.fixed_blocks r → App.Status b = "OK"%string).
Proof.
  intros Hinc. rewrite Forall_forall in Hinc.
  assert (Hnone : ∀ o b, (Some o, Some b) ∈ trips → False).
  { intros o b Hin. destruct (Hinc _ Hin) as [?|?]; done. }
  assert (Hemp : App.absent_days trips start end_ = ∅).
  { apply set_eq. intros x. rewrite elem_of_app_absent_days. split.
    - intros (o & b & Hin & _). destruct (Hnone o b Hin).
    - intros H. by apply elem_of_empty in H. }
  split.
  - apply set_eq. intros d. rewrite elem_of_count_absences_ukvi. split.
    + intros (o & b & Hin & _). destruct (Hnone o b Hin).
    + intros H. by apply elem_of_empty in H.
  - destruct (compute_absence_spec trips start end_ cap)
      as (m & ws & we & fixed & Hr & _ & Hrows & Hc).
    rewrite Hemp in Hr, Hrows, Hc. rewrite elements_empty in Hr, Hrows.
    simpl in Hr. simplify_eq.
    eexists. split; [exact Hc|].
    cbn [App.total_absent_days App.max_in_any_window App.fixed_blocks App.breach].
    rewrite size_empty.
    assert (Hzero : ∀ b, b ∈ fixed → App.Absent_days b = 0
                                     ∧ App.Status b = if cap <? 0 then "BREACH" else "OK").
    { intros b Hb. apply list_elem_of_lookup in Hb as [k Hk].
      destruct (Hrows k b Hk) as (_ & _ & _ & Hcount & Hstatus).
      rewrite Hstatus, Hcount. done. }
    split; [done|]. split; [done|]. split; [intros b Hb; by apply Hzero|].
    intros Hcap. split; [by apply Z.ltb_ge|].
    intros b Hb. destruct (Hzero b Hb) as [_ ->].
    by destruct (Z.ltb_spec cap 0); [lia|].
Qed.

Lemma X18_no_complete_trip_witness :
  Policy.count_absences_ukvi [(None, None); (Some (mk_date 2020 3 1), None)]
    (mk_date 2020 1 1) (mk_date 2025 1 1) = ∅.
Proof.
  refine (proj1 (X18_no_complete_trip [(None, None); (Some (mk_date 2020 3 1), None)]
                   (mk_date 2020 1 1) (mk_date 2025 1 1) 180 _)).
  constructor; [left; reflexivity|].
  constructor; [right; reflexivity|]. constructor.
Defined.

(** X19.  One complete trip that lies within the window counts, whichever
    way round it is entered, its days from the first to the last under
    inclusive counting, and two fewer (but not fewer than none) under UKVI
    counting. *)
Theorem X19_single_trip_length (out back start end_ : date) (cap : Z) :
  start ≤ Z.min out back → Z.max out back ≤ end_ →
  (∃ r, App.compute_absence [(Some out, Some back)] start end_ cap = Some r
        ∧ App.total_absent_days r = Z.abs (back - out) + 1)
  ∧ Z.of_nat (size (Policy.count_absences_ukvi [(Some out, Some back)] start end_))
    = Z.max 0 (Z.abs (back - out) - 1).
Proof.
  intros Hlo Hhi. split.
  - destruct (compute_absence_spec [(Some out, Some back)] start end_ cap)
      as (m & ws & we & fixed & _ & _ & _ & Hc).
    eexists. split; [exact Hc|]. cbn [App.total_absent_days].
    rewrite app_absent_days_union. simpl.
    rewrite size_set_map_inj by apply to_day_serial_inj.
    rewrite (right_id_L ∅ (∪)).
    assert (Heq : day_span (Z.min out back) (Z.max out back) ∩ day_span start end_
                  = day_span (Z.min out back) (Z.max out back)).
    { apply set_eq. intros d. rewrite elem_of_intersection, !elem_of_day_span. lia. }
    rewrite Heq, size_day_span. lia.
  - rewrite count_absences_ukvi_union. simpl. rewrite (right_id_L ∅ (∪)).
    assert (Heq : day_span (Z.min out back + 1) (Z.max out back - 1) ∩ day_span start end_
                  = day_span (Z.min out back + 1) (Z.max out back - 1)).
    { apply set_eq. intros d. rewrite elem_of_intersection, !elem_of_day_span. lia. }
    rewrite Heq, size_day_span. lia.
Qed.

Lemma X19_single_trip_length_witness :
  ∃ r, App.compute_absence [(Some (mk_date 2020 3 10), Some (mk_date 2020 3 1))]
         (mk_date 2020 1 1) (mk_date 2025 1 1) 180 = Some r
       ∧ App.total_absent_days r = Z.abs (mk_date 2020 3 1 - mk_date 2020 3 10) + 1.
Proof.
  refine (proj1 (X19_single_trip_length (mk_date 2020 3 10) (mk_date 2020 3 1)
                   (mk_date 2020 1 1) (mk_date 2025 1 1) 180 _ _));
    vm_compute; discriminate.
Defined.

(** The scan keeps the first entry that reaches the greatest count: every
    earlier entry of the stretch has a smaller count. *)
Lemma window_scan_first_max (pre l post : list Z) j best best_end :
  increasing (pre ++ l ++ post) →
  (j ≤ length pre)%nat →
  below_windows (pre ++ l ++ post) j (length pre) →
  ∃ j' best' best_end',
    Policy.window_scan (pre ++ l ++ post) (enum_from (length pre) l) j best best_end
      = Some (j', best', best_end')
    ∧ (best' = best ∧ best_end' = best_end
       ∨ ∃ x, x ∈ l ∧ best_end' = Some x ∧ wcount (pre ++ l ++ post) x = best'
              ∧ best < best'
              ∧ ∀ z, z ∈ l → z < x → wcount (pre ++ l ++ post) z < best').
Proof.
  revert pre j best best_end.
  induction l as [|x l IH]; intros pre j best best_end Hinc Hj Hlow.
  - exists j, best, best_end. simpl. split; [done|by left].
  - rewrite enum_from_cons, window_scan_cons.
    specialize (IH (pre ++ [x])).
    rewrite <- !(assoc_L (++) pre [x]), length_app in IH. simpl in IH.
    replace (length pre + 1)%nat with (S (length pre)) in IH by lia.
    change ((x :: l) ++ post) with (x :: l ++ post) in *.
    set (days := pre ++ x :: l ++ post) in *.
    assert (Hx : days !! length pre = Some x).
    { subst days. rewrite lookup_app_r, Nat.sub_diag by lia. reflexivity. }
    assert (Hafter : ∀ z, z ∈ l → x < z).
    { intros z Hz. apply list_elem_of_lookup in Hz as [i Hi].
      apply (Hinc (length pre) (S (length pre + i))); [lia|done|].
      subst days. rewrite lookup_app_r by lia.
      replace (S (length pre + i) - length pre)%nat with (S i) by lia.
      simpl. by rewrite lookup_app_l by (by apply lookup_lt_Some in Hi). }
    destruct (advance_spec (length days) days (sub_days x 364) j (length pre) x)
      as (j' & -> & Hb & Hadv & Hat);
      [done|done|unfold sub_days; lia|apply lookup_lt_Some in Hx; lia|].
    cbv zeta. unfold sub_days in Hadv, Hat.
    assert (Hbelow : ∀ k y, (k < j')%nat → days !! k = Some y → y < x - 364).
    { intros k y Hk Hy. destruct (decide (k < j)%nat).
      - by apply (Hlow k y (length pre) x).
      - apply (Hadv k); [lia|done]. }
    assert (Hcount : wcount days x = Z.of_nat (length pre) - Z.of_nat j' + 1).
    { apply wcount_segment; [done|lia|done|done|done]. }
    rewrite <- Hcount.
    assert (Hlow' : below_windows days j' (S (length pre))).
    { intros k y i z Hk Hy Hi Hz.
      assert (x < z) by (apply (Hinc (length pre) i); [lia|done..]).
      specialize (Hbelow k y Hk Hy). lia. }
    destruct (Z.ltb_spec best (wcount days x)).
    + destruct (IH j' (wcount days x) (Some x) Hinc ltac:(lia) Hlow')
        as (j'' & b'' & e'' & -> & Hbest).
      exists j'', b'', e''. split; [done|]. right.
      destruct Hbest as [[-> ->]|(z & Hz & -> & Hw & Hlt & Hfirst)].
      * exists x. split; [by left|]. split; [done|]. split; [done|]. split; [done|].
        intros z Hz Hzx. apply elem_of_cons in Hz as [->|Hz]; [lia|].
        specialize (Hafter z Hz). lia.
      * exists z. split; [by right|]. split; [done|]. split; [done|]. split; [lia|].
        intros z' Hz' Hlt'. apply elem_of_cons in Hz' as [->|Hz']; [lia|].
        by apply Hfirst.
    + destruct (IH j' best best_end Hinc ltac:(lia) Hlow')
        as (j'' & b'' & e'' & -> & Hbest).
      exists j'', b'', e''. split; [done|].
      destruct Hbest as [[-> ->]|(z & Hz & -> & Hw & Hlt & Hfirst)]; [by left|].
      right. exists z. split; [by right|]. split; [done|]. split; [done|]. split; [done|].
      intros z' Hz' Hlt'. apply elem_of_cons in Hz' as [->|Hz']; [lia|].
      by apply Hfirst.
Qed.

(** X20.  Of several windows that reach the rolling maximum,
    [rolling_12m_max] reports the earliest: the 365 days ending on any absent
    day before the reported window end hold fewer absent days than
    [max_count]. *)
Theorem X20_earliest_peak_window (absent : gset Z) :
  ∃ max_count window_start window_end,
    Policy.rolling_12m_max (elements absent)
      = Some (max_count, window_start, window_end)
    ∧ ∀ e, window_end = Some e →
        ∀ z, z ∈ absent → z < e → count_in absent (z - 364) z < max_count.
Proof.
  destruct (decide (elements absent = [])) as [Hnil|Hne].
  - rewrite Hnil. exists 0, None, None. split; [done|]. intros e He. done.
  - rewrite (rolling_12m_max_nonempty _ Hne).
    set (days := merge_sort Z.le (elements absent)).
    assert (Hdays : days ≡ₚ elements absent) by apply merge_sort_Permutation.
    assert (Hinc : increasing days).
    { apply merge_sort_increasing, NoDup_elements. }
    destruct (window_scan_first_max [] days [] 0%nat 0 None)
      as (j' & best & best_end & Hscan & Hbest).
    { simpl. by rewrite app_nil_r. }
    { simpl. lia. }
    { intros k y i x Hk. lia. }
    simpl in Hscan, Hbest. rewrite app_nil_r in Hscan, Hbest.
    change (enum_from 0 days) with (Policy.enumerate days) in Hscan.
    rewrite Hscan.
    exists best, ((λ e, sub_days e 364) <$> best_end), best_end.
    split; [done|]. intros e He z Hz Hlt.
    destruct Hbest as [[_ ->]|(x & Hx & -> & Hw & _ & Hfirst)]; [done|].
    simplify_eq. rewrite <- (wcount_count_in absent days z Hdays).
    apply Hfirst; [|done]. rewrite Hdays. by apply elem_of_elements.
Qed.

Lemma render_rows_prefix (widgets : nat → option date * option date * bool)
    (trips : list trip) (k : nat) :
  (k ≤ length trips)%nat →
  foldl (λ state row,
           '(trips, to_delete) ← state;
           let idx := row.1 in
           let '(out_val, back_val, pressed) := widgets idx in
           let to_delete := if pressed then to_delete ++ [idx] else to_delete in
           trips ← Ui.set_item trips idx (out_val, back_val);
           Some (trips, to_delete))
        (Some (trips, [])) (take k (zip (seq 0 (length trips)) trips))
  = Some (((λ i, (widgets i).1) <$> seq 0 k) ++ drop k trips,
          filter (λ i, (widgets i).2 = true) (seq 0 k)).
Proof.
  induction k as [|k IH]; intros Hk.
  - by rewrite take_0, drop_0.
  - destruct (lookup_lt_is_Some_2 trips k) as [t Ht]; [lia|].
    assert (Hz : zip (seq 0 (length trips)) trips !! k = Some (k, t)).
    { apply lookup_zip_Some. split; [|done]. apply lookup_seq. lia. }
    rewrite (take_S_r _ _ _ Hz), foldl_snoc, IH by lia. clear IH.
    rewrite seq_S, fmap_app, filter_app. cbn [fmap list_fmap plus fst mbind option_bind].
    destruct (widgets k) as [[out_val back_val] pressed] eqn:Ew.
    unfold Ui.set_item.
    assert (Hlen : length (((λ i, (widgets i).1) <$> seq 0 k) ++ drop k trips)
                   = length trips).
    { rewrite length_app, length_fmap, length_seq, length_drop. lia. }
    rewrite decide_True by (rewrite Hlen; lia).
    cbn [mbind option_bind fst snd]. f_equal. f_equal.
    + rewrite (drop_S _ _ _ Ht).
      replace k with (length ((λ i, (widgets i).1) <$> seq 0 k) + 0)%nat at 1
        by (rewrite length_fmap, length_seq; lia).
      rewrite insert_app_r. simpl. by rewrite <- (assoc_L (++)).
    + destruct pressed.
      * by rewrite filter_cons_True by (by rewrite Ew).
      * rewrite filter_cons_False by (by rewrite Ew). by rewrite app_nil_r.
Qed.

Lemma sorted_filter_seq (P : nat → Prop) `{!∀ i, Decision (P i)} a n :
  Sorted le (filter P (seq a n)).
Proof.
  apply StronglySorted_Sorted.
  revert a. induction n as [|n IH]; intros a; [constructor|]. simpl.
  assert (Hall : Forall (le a) (filter P (seq (S a) n))).
  { apply Forall_forall. intros i Hi. apply list_elem_of_filter in Hi as [_ Hi].
    apply elem_of_seq in Hi. lia. }
  destruct (decide (P a)).
  - rewrite filter_cons_True by done. by constructor.
  - rewrite filter_cons_False by done. apply IH.
Qed.

Lemma delete_fold_none (ds : list nat) :
  foldl (λ state i, trips ← state; Ui.del_item trips i) None ds = None.
Proof. induction ds as [|i ds IH]; [done|]. simpl. apply IH. Qed.

Lemma delete_fold_app (ds : list nat) (l t s : list trip) :
  foldl (λ state i, trips ← state; Ui.del_item trips i) (Some l) ds = Some t →
  foldl (λ state i, trips ← state; Ui.del_item trips i) (Some (l ++ s)) ds
  = Some (t ++ s).
Proof.
  revert l. induction ds as [|i ds IH]; intros l H; simpl in *.
  - by simplify_eq.
  - unfold Ui.del_item in *.
    destruct (decide (i < length l)%nat) as [Hi|Hi].
    + rewrite decide_True by (rewrite length_app; lia).
      replace (delete i (l ++ s)) with (delete i l ++ s); [by apply IH|].
      rewrite !delete_take_drop, take_app_le, drop_app_le by lia.
      by rewrite <- (assoc_L (++)).
    + by rewrite delete_fold_none in H.
Qed.

(** Deleting, from the last to the first, the rows whose button was pressed
    leaves the other rows. *)
Lemma delete_pressed_rows (f : nat → trip) (p : nat → bool) (n : nat) :
  foldl (λ state i, trips ← state; Ui.del_item trips i) (Some (f <$> seq 0 n))
        (reverse (filter (λ i, p i = true) (seq 0 n)))
  = Some (f <$> filter (λ i, p i = false) (seq 0 n)).
Proof.
  induction n as [|n IH]; [done|].
  rewrite seq_S, !filter_app, !fmap_app. simpl.
  destruct (p n) eqn:Ep.
  - rewrite (filter_cons_True (λ i, p i = true)) by done.
    rewrite (filter_cons_False (λ i, p i = false)) by (rewrite Ep; done).
    rewrite reverse_app. simpl. unfold Ui.del_item at 2.
    rewrite decide_True by (rewrite length_app, length_fmap, length_seq; simpl; lia).
    assert (Hd : delete n ((f <$> seq 0 n) ++ [f n]) = f <$> seq 0 n).
    { pose proof (delete_middle (f <$> seq 0 n) [] (f n)) as Hm.
      rewrite length_fmap, length_seq, app_nil_r in Hm. exact Hm. }
    rewrite Hd, app_nil_r. apply IH.
  - rewrite (filter_cons_False (λ i, p i = true)) by (rewrite Ep; done).
    rewrite (filter_cons_True (λ i, p i = false)) by done.
    rewrite app_nil_r. by apply delete_fold_app.
Qed.

(** X21.  One run of the trip rows of [streamlit_app.py] never raises and
    leaves, in their order, the rows whose delete button was not pressed,
    each with the dates its widgets returned; a row added in that run is the
    last one. *)
Theorem X21_edit_trips (add : bool)
    (widgets : nat → option date * option date * bool) (trips : list trip) :
  Ui.edit_trips add widgets trips
  = Some ((λ i, (widgets i).1)
            <$> filter (λ i, (widgets i).2 = false)
                  (seq 0 (length trips + (if add then 1 else 0)))).
Proof.
  unfold Ui.edit_trips.
  set (rows := if add then trips ++ [(None, None)] else trips).
  assert (Hlen : length rows = (length trips + (if add then 1 else 0))%nat).
  { subst rows. destruct add; [by rewrite length_app|lia]. }
  rewrite <- Hlen. clear Hlen. unfold Ui.render_rows.
  rewrite <- (firstn_all (zip (seq 0 (length rows)) rows)).
  replace (length (zip (seq 0 (length rows)) rows)) with (length rows)
    by (rewrite length_zip, length_seq; lia).
  rewrite render_rows_prefix by lia. simpl.
  rewrite drop_all, app_nil_r. unfold Ui.delete_selected.
  replace (merge_sort le (filter (λ i, (widgets i).2 = true) (seq 0 (length rows))))
    with (filter (λ i, (widgets i).2 = true) (seq 0 (length rows))).
  - apply (delete_pressed_rows (λ i, (widgets i).1) (λ i, (widgets i).2)).
  - apply (Sorted_unique le).
    + apply sorted_filter_seq.
    + apply Sorted_merge_sort; apply _.
    + by rewrite merge_sort_Permutation.
Qed.

(** ** Within the range of [datetime] *)

Lemma last_day_of_year y : mk_date y 12 31 = days_before_year (y + 1).
Proof.
  unfold mk_date, ymd2ord, days_before_month. rewrite days_before_year_succ.
  simpl. destruct (is_leap y); lia.
Qed.

Lemma first_day_of_year y : mk_date y 1 1 = days_before_year y + 1.
Proof. unfold mk_date, ymd2ord, days_before_month. simpl. lia. Qed.

(** The year of a date is the year of any bounds it lies between. *)
Lemma year_between d y m dd lo hi :
  ord2ymd d = (y, m, dd) → mk_date lo 1 1 ≤ d ≤ mk_date hi 12 31 → lo ≤ y ≤ hi.
Proof.
  intros E. rewrite first_day_of_year, last_day_of_year. intros [Hlo Hhi].
  pose proof (ord2ymd_valid _ _ _ _ E) as Hv.
  pose proof (ymd2ord_year_bounds _ _ _ Hv) as Hb.
  rewrite (ymd2ord_ord2ymd _ _ _ _ E) in Hb.
  split.
  - destruct (Z.le_gt_cases lo y); [done|].
    pose proof (days_before_year_mono (y + 1) lo ltac:(lia)). lia.
  - destruct (Z.le_gt_cases y hi); [done|].
    pose proof (days_before_year_mono (hi + 1) y ltac:(lia)). lia.
Qed.

Lemma add_years_range k d y m dd :
  ord2ymd d = (y, m, dd) →
  mk_date (y + k) 1 1 ≤ Calendar.add_years k d ≤ mk_date (y + k) 12 31.
Proof.
  intros E. pose proof (add_years_ymd k _ _ _ _ E) as Ek.
  pose proof (ord2ymd_valid _ _ _ _ Ek) as Hv.
  pose proof (ymd2ord_year_bounds _ _ _ Hv) as Hb.
  rewrite (ymd2ord_ord2ymd _ _ _ _ Ek) in Hb.
  rewrite first_day_of_year, last_day_of_year. lia.
Qed.

Lemma mk_date_year_mono y y' : y ≤ y' → mk_date y 12 31 ≤ mk_date y' 12 31.
Proof. intros H. rewrite !last_day_of_year. apply days_before_year_mono. lia. Qed.

(** Adding years to a date of [datetime] does not raise while the year
    stays up to 9999. *)
Lemma checked_add_years k d hi :
  0 ≤ k → hi + k ≤ 9999 →
  mk_date 1 1 1 ≤ d ≤ mk_date hi 12 31 →
  Checked.add_years k d = inr (Calendar.add_years k d)
  ∧ mk_date 1 1 1 ≤ Calendar.add_years k d ≤ mk_date (hi + k) 12 31.
Proof.
  intros Hk Hhi Hd. unfold Checked.add_years.
  destruct (ord2ymd d) as [[y m] dd] eqn:E.
  pose proof (year_between _ _ _ _ _ _ E Hd) as Hy.
  pose proof (add_years_range k _ _ _ _ E) as Hr.
  unfold Checked.MINYEAR, Checked.MAXYEAR.
  destruct (Z.leb_spec 1 (y + k)); [|lia].
  destruct (Z.leb_spec (y + k) 9999); [|lia]. simpl. split; [done|].
  pose proof (mk_date_year_mono (y + k) (hi + k) ltac:(lia)).
  assert (mk_date 1 1 1 ≤ mk_date (y + k) 1 1); [|lia].
  rewrite !first_day_of_year.
  pose proof (days_before_year_mono 1 (y + k) ltac:(lia)). lia.
Qed.

Lemma checked_sub_days d n :
  mk_date 1 1 1 ≤ d - n ≤ mk_date 9999 12 31 → Checked.sub_days d n = inr (d - n).
Proof.
  intros H. unfold Checked.sub_days, Checked.min_ordinal, Checked.max_ordinal,
    Checked.MINYEAR, Checked.MAXYEAR.
  destruct (Z.leb_spec (mk_date 1 1 1) (d - n)); [|lia].
  destruct (Z.leb_spec (d - n) (mk_date 9999 12 31)); [done|lia].
Qed.

Lemma checked_from_day_serial n :
  mk_date 1 1 1 ≤ App.from_day_serial n ≤ mk_date 9999 12 31 →
  Checked.from_day_serial n = inr (App.from_day_serial n).
Proof.
  intros H. unfold Checked.from_day_serial, Checked.add_days, Checked.min_ordinal,
    Checked.max_ordinal, Checked.MINYEAR, Checked.MAXYEAR.
  unfold App.from_day_serial, Calendar.add_days in *.
  destruct (Z.leb_spec (mk_date 1 1 1) (mk_date 1970 1 1 + n)); [|lia].
  destruct (Z.leb_spec (mk_date 1970 1 1 + n) (mk_date 9999 12 31)); [done|lia].
Qed.

(** One step of a block loop within the range: the next anniversary and the
    day before it are dates of [datetime]. *)
Lemma checked_block_step cur fivey_end :
  mk_date 1 1 1 ≤ cur → cur ≤ fivey_end → fivey_end ≤ mk_date 9998 12 31 →
  Checked.add_years 1 cur = inr (Calendar.add_years 1 cur)
  ∧ Checked.sub_days (Calendar.add_years 1 cur) 1 = inr (Calendar.add_years 1 cur - 1)
  ∧ mk_date 1 1 1 ≤ Calendar.add_years 1 cur.
Proof.
  intros Hlo Hle Hhi.
  destruct (checked_add_years 1 cur 9998) as [Hadd Hr]; [lia|lia|lia|].
  pose proof (add_years_1_bounds cur) as Hb.
  split; [done|]. split; [|lia].
  apply checked_sub_days. change (9998 + 1) with 9999 in Hr. lia.
Qed.

(** Within the range the checked loop of [build_fixed_blocks] returns what
    the loop returns. *)
Lemma checked_policy_block_loop fuel absent_set fivey_end cap rows i cur out :
  mk_date 1 1 1 ≤ cur → fivey_end ≤ mk_date 9998 12 31 →
  Policy.block_loop fuel absent_set fivey_end cap rows i cur = Some out →
  Checked.block_loop fuel absent_set fivey_end cap rows i cur = inr out.
Proof.
  intros Hlo Hhi. revert rows i cur Hlo.
  induction fuel as [|fuel IH]; intros rows i cur Hlo; simpl.
  - destruct (Z.leb_spec cur fivey_end) as [?|?]; [done|]. intros Heq. by simplify_eq.
  - destruct (Z.leb_spec cur fivey_end) as [Hle|Hgt]; [|intros Heq; by simplify_eq].
    destruct (checked_block_step cur fivey_end Hlo Hle Hhi) as (-> & -> & Hnext).
    unfold Calendar.sub_days. by apply IH.
Qed.

Lemma checked_block_days (absent_sorted : list Z) cur_start cur_end :
  Forall (λ n, mk_date 1 1 1 ≤ App.from_day_serial n ≤ mk_date 9999 12 31)
         absent_sorted →
  Checked.block_days absent_sorted cur_start cur_end
  = inr (App.block_days absent_sorted cur_start cur_end).
Proof.
  intros Hall. unfold Checked.block_days, App.block_days. generalize 0.
  induction Hall as [|n l Hn _ IH]; intros acc; [done|].
  cbn [foldl]. rewrite (checked_from_day_serial n Hn). apply IH.
Qed.

(** Within the range the checked loop over blocks of [compute_absence]
    returns what the loop returns. *)
Lemma checked_app_fixed_loop fuel (absent_sorted : list Z) end_ cap cur fixed out :
  Forall (λ n, mk_date 1 1 1 ≤ App.from_day_serial n ≤ mk_date 9999 12 31)
         absent_sorted →
  mk_date 1 1 1 ≤ cur → end_ ≤ mk_date 9998 12 31 →
  App.fixed_loop fuel absent_sorted end_ cap cur fixed = Some out →
  Checked.fixed_loop fuel absent_sorted end_ cap cur fixed = inr out.
Proof.
  intros Hall Hlo Hhi. revert fixed cur Hlo.
  induction fuel as [|fuel IH]; intros fixed cur Hlo; simpl.
  - destruct (Z.leb_spec cur end_) as [?|?]; [done|]. intros Heq. by simplify_eq.
  - destruct (Z.leb_spec cur end_) as [Hle|Hgt]; [|intros Heq; by simplify_eq].
    destruct (checked_block_step cur end_ Hlo Hle Hhi) as (-> & -> & Hnext).
    rewrite (checked_block_days _ _ _ Hall).
    unfold Calendar.sub_days. by apply IH.
Qed.

Lemma compute_absence_fixed_loop trips start end_ cap r :
  App.compute_absence trips start end_ cap = Some r →
  App.fixed_loop (App.block_fuel start end_)
    (merge_sort Z.le (elements (App.absent_days trips start end_))) end_ cap start []
  = Some (App.fixed_blocks r).
Proof.
  unfold App.compute_absence.
  destruct (App.window_scan _ _ _ _) as [[j b]|]; [|done].
  destruct (App.fixed_loop _ _ _ _ _ _) as [fixed|]; [|done].
  intros Heq. by simplify_eq.
Qed.

(** C9, as the specification states it, fails at the end of the range of
    [datetime]: for the residence start 9994-06-01 the qualifying date is
    9999-06-01, and both block loops raise [ValueError] when the sixth block,
    which starts on that date, adds a year to it. *)
Lemma C9_year_9994_counterexample :
  Checked.compute_dates (mk_date 9994 6 1)
    = inr (mk_date 9999 6 1, mk_date 9999 5 4)
  ∧ Checked.build_fixed_blocks ∅ (mk_date 9994 6 1) (mk_date 9999 6 1) 180
    = inl Checked.ValueError
  ∧ Checked.fixed_blocks [] (mk_date 9994 6 1) (mk_date 9999 6 1) 180
    = inl Checked.ValueError.
Proof. repeat split; vm_compute; reflexivity. Qed.

(** C9 (six blocks over five years), amended.  For every residence start
    from 0001-01-01 to 9993-12-31, [compute_dates] and both block loops, run
    with the range of [datetime] checked, return; the block sequence over the
    window from the start to the qualifying date has six blocks in both
    programs, and the sixth starts and ends on the qualifying date. *)
Theorem C9_six_blocks_in_range (absent_set : gset Z) (trips : list trip)
    (res_start : date) (cap : Z) :
  mk_date 1 1 1 ≤ res_start ≤ mk_date 9993 12 31 →
  ∃ qualifying earliest,
    Checked.compute_dates res_start = inr (qualifying, earliest)
    ∧ Policy.compute_dates res_start = (qualifying, earliest)
    ∧ App.compute_dates res_start = (qualifying, earliest)
    ∧ (∃ rows sixth,
        Checked.build_fixed_blocks absent_set res_start qualifying cap = inr rows
        ∧ Policy.build_fixed_blocks absent_set res_start qualifying cap = Some rows
        ∧ length rows = 6%nat ∧ rows !! 5%nat = Some sixth
        ∧ Policy.Year sixth = 6
        ∧ Policy.Start sixth = qualifying
        ∧ Policy.End_ sixth = qualifying)
    ∧ (∃ r sixth,
        Checked.fixed_blocks trips res_start qualifying cap
          = inr (App.fixed_blocks r)
        ∧ App.compute_absence trips res_start qualifying cap = Some r
        ∧ length (App.fixed_blocks r) = 6%nat
        ∧ App.fixed_blocks r !! 5%nat = Some sixth
        ∧ App.Year sixth = 6
        ∧ App.Start sixth = qualifying
        ∧ App.End_ sixth = qualifying).
Proof.
  intros Hrange.
  destruct (checked_add_years 5 res_start 9993) as [Hadd Hq]; [lia|lia|done|].
  change (9993 + 5) with 9998 in Hq.
  pose proof (anniversary_lower 5 res_start) as Hlow. rewrite anniversary_5 in Hlow.
  exists (Calendar.add_years 5 res_start), (Calendar.add_years 5 res_start - 28).
  split; [|split; [done|split; [done|]]].
  - unfold Checked.compute_dates. rewrite Hadd, checked_sub_days; [done|].
    pose proof (mk_date_year_mono 9998 9999 ltac:(lia)). lia.
  - destruct (six_blocks_any_start absent_set trips res_start cap)
      as [(rows & sixth & Hb & Hrows) (r & sixth' & Hc & Hfixed)].
    change (Policy.compute_dates res_start).1 with (Calendar.add_years 5 res_start)
      in Hb, Hrows.
    change (App.compute_dates res_start).1 with (Calendar.add_years 5 res_start)
      in Hc, Hfixed.
    split.
    + exists rows, sixth. split; [|by split].
      apply checked_policy_block_loop; [lia|lia|done].
    + exists r, sixth'. split; [|by split].
      apply checked_app_fixed_loop; [|lia|lia|by apply compute_absence_fixed_loop].
      apply Forall_forall. intros n Hn.
      rewrite merge_sort_Permutation in Hn. apply elem_of_elements in Hn.
      apply app_absent_days_in_window in Hn.
      pose proof (mk_date_year_mono 9998 9999 ltac:(lia)). lia.
Qed.

Lemma C9_six_blocks_in_range_witness :
  mk_date 1 1 1 ≤ mk_date 2020 2 29 ≤ mk_date 9993 12 31
  ∧ ∃ qualifying earliest,
      Checked.compute_dates (mk_date 2020 2 29) = inr (qualifying, earliest)
      ∧ ∃ rows,
          Checked.build_fixed_blocks ∅ (mk_date 2020 2 29) qualifying 180 = inr rows
          ∧ length rows = 6%nat.
Proof.
  assert (H : mk_date 1 1 1 ≤ mk_date 2020 2 29 ≤ mk_date 9993 12 31)
    by (split; vm_compute; discriminate).
  split; [exact H|].
  destruct (C9_six_blocks_in_range ∅ [] (mk_date 2020 2 29) 180 H)
    as (q & e & Hd & _ & _ & (rows & sixth & Hb & _ & Hlen & _) & _).
  exists q, e. split; [exact Hd|]. exists rows. split; [exact Hb|exact Hlen].
Defined.
